(** * The screenshot sort page: ordering, selection, soft delete and drop insertion

    Shallow embedding of [pm-tool-v2/frontend/src/app/sort/page.tsx].

    The page's own handlers ([handleDragEnd], [handleCardClick], [handleDrop],
    [handleKeyDown], [handleDeleteSelected]) are translated from the source.
    The zustand store they call ([useSortStore], module [@/store/sort]) is
    imported by the page; its operations are modelled from the specification
    and every such definition says so in its doc comment. *)

From Stdlib Require Ascii String.
From Stdlib Require Import ZArith Lia.
From stdpp Require Import base list strings gmap sets sorting pretty.

Open Scope string_scope.
Open Scope list_scope.
Open Scope nat_scope.

(** ** Data model *)

(** [Screenshot] of [@/types]: the page builds values [{ filename, path: '' }]. *)
Record Screenshot := mkScreenshot { filename : string; path : string }.

#[global] Instance Screenshot_eq_dec : EqDecision Screenshot.
Proof. solve_decision. Defined.

(** Modelled from the spec: the type of a batch of soft-deleted screenshots,
    declared in [@/types/sort]. "DeletedBatch: { timestamp: string (unique,
    monotonically increasing), items: ordered sequence of ScreenshotRef,
    count: integer }". The page reads [batch.timestamp] (React key and
    argument of [restoreBatch]) and [batch.count]. The timestamp is only
    compared for equality and ordered; it is kept as its rank on the clock. *)
Record DeletedBatch := mkBatch {
  timestamp : nat;
  items : list Screenshot;
  count : nat
}.

#[global] Instance DeletedBatch_eq_dec : EqDecision DeletedBatch.
Proof. solve_decision. Defined.

(** Modelled from the spec: the state of the store [useSortStore], declared
    in [@/store/sort]; the fields are those the page destructures from
    [useSortStore()] that ordering, selection and undo depend on
    (OrderedCollection, undo log, SelectionSet, view state, DirtyFlag). *)
Record Store := mkStore {
  sortedScreenshots : list Screenshot;
  deletedBatches : list DeletedBatch;
  selectedFiles : gset string;
  previewIndex : option nat;
  lastClickedIndex : option nat;
  hasChanges : bool
}.

(** Modelled from the spec: the error taxonomy of the store, "FetchError,
    PersistError, DuplicateKeyError, EmptySelectionError, BatchNotFoundError,
    ImportError". [IndexOutOfRangeError] stands for the unnamed fail-fast
    outcome of an index precondition violation ("index out of range"). *)
Inductive StoreError :=
| FetchError
| PersistError
| DuplicateKeyError
| EmptySelectionError
| BatchNotFoundError
| ImportError
| IndexOutOfRangeError.

(** Modelled from the spec: what a store operation leaves behind, the state
    after it and the error it "surfaced to the caller", if any. *)
Record Outcome := mkOutcome { next : Store; raised : option StoreError }.

Definition done_ok (st : Store) : Outcome := mkOutcome st None.
Definition failed (st : Store) (e : StoreError) : Outcome := mkOutcome st (Some e).

Definition filenames (l : list Screenshot) : list string := filename <$> l.

Definition with_screenshots (l : list Screenshot) (st : Store) : Store :=
  mkStore l (deletedBatches st) (selectedFiles st) (previewIndex st)
          (lastClickedIndex st) (hasChanges st).

Definition with_selection (s : gset string) (st : Store) : Store :=
  mkStore (sortedScreenshots st) (deletedBatches st) s (previewIndex st)
          (lastClickedIndex st) (hasChanges st).

Definition with_changes (b : bool) (st : Store) : Store :=
  mkStore (sortedScreenshots st) (deletedBatches st) (selectedFiles st)
          (previewIndex st) (lastClickedIndex st) b.

(** ** Store operations *)

(** Modelled from the spec: the move behind [reorder], "single-element move
    semantics, not swap": take the element out at [from], put it back at
    [to] in the shortened list. *)
Definition move_item {A} (from to : nat) (l : list A) : list A :=
  match l !! from with
  | Some x => take to (delete from l) ++ x :: drop to (delete from l)
  | None => l
  end.

(** Modelled from the spec: [reorder] of the store [@/store/sort], which is
    not among the sources. "moves the element at fromIndex to toIndex,
    shifting intervening elements; both indices must satisfy
    0 <= index < length; no-op if fromIndex == toIndex; sets DirtyFlag."
    Indices are JS numbers ([findIndex] may hand over [-1]); an index outside
    the range fails fast and leaves the state as it is. *)
Definition reorder (fromIndex toIndex : Z) (st : Store) : Outcome :=
  let n := Z.of_nat (length (sortedScreenshots st)) in
  if decide (0 ≤ fromIndex < n ∧ 0 ≤ toIndex < n)%Z then
    if decide (fromIndex = toIndex) then done_ok st
    else done_ok (with_changes true
           (with_screenshots
              (move_item (Z.to_nat fromIndex) (Z.to_nat toIndex) (sortedScreenshots st)) st))
  else failed st IndexOutOfRangeError.

(** [Array.prototype.findIndex]: position of the first match, [-1] without one. *)
Definition findIndex (p : Screenshot → bool) (l : list Screenshot) : Z :=
  match list_find (λ s, p s = true) l with
  | Some (i, _) => Z.of_nat i
  | None => (-1)%Z
  end.

(** [handleDragEnd] (page.tsx 198-207). [over] is [None] when the drag ends
    outside every droppable. [setActiveId(null)] touches page-local state only. *)
Definition handleDragEnd (active : string) (over : option string) (st : Store) : Outcome :=
  match over with
  | Some over_id =>
      if decide (active ≠ over_id) then
        let oldIndex := findIndex (λ s, bool_decide (filename s = active)) (sortedScreenshots st) in
        let newIndex := findIndex (λ s, bool_decide (filename s = over_id)) (sortedScreenshots st) in
        reorder oldIndex newIndex st
      else done_ok st
  | None => done_ok st
  end.

(** *** Selection *)

(** Modelled from the spec: [toggleSelect] of the store. "adds/removes a
    single filename from SelectionSet; no-op if filename absent from
    OrderedCollection." *)
Definition toggleSelect (f : string) (st : Store) : Store :=
  if decide (f ∈ filenames (sortedScreenshots st)) then
    if decide (f ∈ selectedFiles st)
    then with_selection (selectedFiles st ∖ {[f]}) st
    else with_selection ({[f]} ∪ selectedFiles st) st
  else st.

(** Modelled from the spec: [selectAll] of the store. "set SelectionSet to
    all filenames". *)
Definition selectAll (st : Store) : Store :=
  with_selection (list_to_set (filenames (sortedScreenshots st))) st.

(** Modelled from the spec: [deselectAll] of the store, the spec's
    clearSelection. "set SelectionSet to ... empty". *)
Definition deselectAll (st : Store) : Store := with_selection ∅ st.

(** Modelled from the spec: the store's setter behind selectRange, which
    "replaces SelectionSet" with the set it is handed. *)
Definition setSelectedFiles (s : gset string) (st : Store) : Store := with_selection s st.

(** Modelled from the spec: [setPreviewIndex] of the store, a setter of its
    "zoom/view state"; it stores its argument. *)
Definition setPreviewIndex (i : option nat) (st : Store) : Store :=
  mkStore (sortedScreenshots st) (deletedBatches st) (selectedFiles st) i
          (lastClickedIndex st) (hasChanges st).

(** Modelled from the spec: [setLastClickedIndex] of the store, a setter of
    its view state; it stores its argument. *)
Definition setLastClickedIndex (i : option nat) (st : Store) : Store :=
  mkStore (sortedScreenshots st) (deletedBatches st) (selectedFiles st)
          (previewIndex st) i (hasChanges st).

(** [Array.prototype.slice(start, end)] on indices that are natural numbers:
    the elements at positions [start <= k < end], as far as the array goes. *)
Definition slice {A} (start end_ : nat) (l : list A) : list A :=
  take (end_ - start) (drop start l).

(** The modifier keys [handleCardClick] reads off the [React.MouseEvent]. *)
Record MouseEvent := mkMouse { shiftKey : bool; ctrlKey : bool; metaKey : bool }.

(** [handleCardClick] (page.tsx 209-223). The callback is rebuilt whenever
    [lastClickedIndex] or [sortedScreenshots] change, so the values it closes
    over are those of the store at the click. *)
Definition handleCardClick (e : MouseEvent) (index : nat) (fname : string) (st : Store) : Store :=
  let st1 := setPreviewIndex (Some index) st in
  let st2 :=
    match shiftKey e, lastClickedIndex st with
    | true, Some last =>
        let start := Nat.min last index in
        let end_ := Nat.max last index in
        setSelectedFiles
          (list_to_set (filename <$> slice start (end_ + 1) (sortedScreenshots st))) st1
    | _, _ =>
        if ctrlKey e || metaKey e then toggleSelect fname st1
        else setSelectedFiles {[ fname ]} st1
    end in
  setLastClickedIndex (Some index) st2.

(** The spec's [selectRange(anchorIndex, targetIndex)] as the page performs
    it: a shift-click on the card at [targetIndex] after a click on the card
    at [anchorIndex]. *)
Definition selectRange (anchorIndex targetIndex : nat) (fname : string) (st : Store) : Store :=
  handleCardClick (mkMouse true false false) targetIndex fname
                  (setLastClickedIndex (Some anchorIndex) st).

(** *** Soft delete and undo *)

(** Modelled from the spec: the "new unique timestamp" of a batch,
    "unique, monotonically increasing": one past every timestamp in the log. *)
Definition next_timestamp (log : list DeletedBatch) : nat :=
  S (max_list (timestamp <$> log)).

Definition is_selected (sel : gset string) (s : Screenshot) : Prop := filename s ∈ sel.

#[global] Instance is_selected_dec sel s : Decision (is_selected sel s).
Proof. unfold is_selected. apply _. Defined.

(** Modelled from the spec: [deleteSelected] of the store. "requires
    SelectionSet non-empty; removes every selected filename from
    OrderedCollection preserving relative order of survivors; captures the
    removed items (in their original relative order) plus a new unique
    timestamp into a new DeletedBatch appended to the undo log; clears
    SelectionSet; sets DirtyFlag. Fails with EmptySelectionError if
    SelectionSet is empty." *)
Definition deleteSelected (st : Store) : Outcome :=
  if decide (selectedFiles st = ∅) then failed st EmptySelectionError
  else
    let removed := filter (is_selected (selectedFiles st)) (sortedScreenshots st) in
    let kept := filter (λ s, ¬ is_selected (selectedFiles st) s) (sortedScreenshots st) in
    let batch := mkBatch (next_timestamp (deletedBatches st)) removed (length removed) in
    done_ok (mkStore kept (deletedBatches st ++ [batch]) ∅
                     (previewIndex st) (lastClickedIndex st) true).

Definition has_timestamp (ts : nat) (b : DeletedBatch) : Prop := timestamp b = ts.

#[global] Instance has_timestamp_dec ts b : Decision (has_timestamp ts b).
Proof. unfold has_timestamp. apply _. Defined.

(** Modelled from the spec: [restoreBatch] of the store. "looks up the
    DeletedBatch by timestamp; fails with BatchNotFoundError if absent;
    re-inserts its items at the end of OrderedCollection (policy: append,
    not original position); removes the batch from the undo log; sets
    DirtyFlag." *)
Definition restoreBatch (ts : nat) (st : Store) : Outcome :=
  match list_find (has_timestamp ts) (deletedBatches st) with
  | Some (i, batch) =>
      done_ok (mkStore (sortedScreenshots st ++ items batch)
                       (delete i (deletedBatches st))
                       (selectedFiles st) (previewIndex st) (lastClickedIndex st) true)
  | None => failed st BatchNotFoundError
  end.

(** *** Loading and saving *)

(** Modelled from the spec: what the backend answers to the fetch of a
    project's screenshots; it may be "unreachable" or return "invalid data". *)
Inductive FetchReply :=
| Unreachable
| InvalidData
| Screenshots (l : list Screenshot).

(** Modelled from the spec: [fetchData] (the spec's load) of the store.
    "replaces OrderedCollection; clears SelectionSet, DeletedBatch log, and
    DirtyFlag. Fails with FetchError if the backend is unreachable or returns
    invalid data; on failure the previous state is preserved and an error is
    surfaced to the caller." *)
Definition fetchData (reply : FetchReply) (st : Store) : Outcome :=
  match reply with
  | Screenshots l =>
      done_ok (mkStore l [] ∅ (previewIndex st) (lastClickedIndex st) false)
  | Unreachable | InvalidData => failed st FetchError
  end.

(** Modelled from the spec: [saveSortOrder] (the spec's save) of the store,
    seen from the resolution of its request. "on success clears DirtyFlag; on
    failure leaves state untouched and surfaces PersistError." *)
Definition saveSortOrder (backend_ok : bool) (st : Store) : Outcome :=
  if backend_ok then done_ok (with_changes false st)
  else failed st PersistError.

(** Modelled from the spec: [applySortOrder] (the spec's applyAndRename) of
    the store, seen from the resolution of its request. "like save, but
    additionally instructs the backend to physically rename stored files to
    match positional order ...; this is a backend-side side-effecting
    operation; the store only triggers it and reflects success/failure"; its
    failure is "surfaced as PersistError". *)
Definition applySortOrder (backend_ok : bool) (st : Store) : Outcome :=
  saveSortOrder backend_ok st.

(** Modelled from the spec: the store as "created empty on project
    selection". *)
Definition initial_store : Store := mkStore [] [] ∅ None None false.

(** Modelled from the spec: [reset] of the store, called when the project is
    deselected; the state is "discarded (reset)". *)
Definition reset (st : Store) : Store := initial_store.

(** ** Drop insertion *)

(** The splice both insertion paths of [handleDrop] perform through
    [useSortStore.setState] (page.tsx 281-285 and 310-314; the spec's
    insertAt): [[...current.slice(0, targetIndex), ...newScreenshots,
    ...current.slice(targetIndex)]] with [hasChanges: true]; [setState]
    merges, so the other fields stay. *)
Definition insertAt (targetIndex : nat) (newScreenshots : list Screenshot) (st : Store) : Store :=
  let current := sortedScreenshots st in
  with_changes true
    (with_screenshots
       (slice 0 targetIndex current ++ newScreenshots ++ drop targetIndex current) st).

(** A JS string used as a condition: the empty string is falsy. *)
Definition truthy (s : string) : bool := negb (String.eqb s "").

(** A nullable string used as a condition. *)
Definition truthy_opt (o : option string) : option string :=
  match o with
  | Some s => if truthy s then Some s else None
  | None => None
  end.

(** What [importScreenshot] and [uploadScreenshot] of [@/lib/api] hand back:
    a resolved promise with [{ success, new_filename }] or a rejection. *)
Inductive ApiReply :=
| Resolved (success : bool) (new_filename : option string)
| Rejected (message : string).

(** [result.success && result.new_filename] *)
Definition accepted (r : ApiReply) : option string :=
  match r with
  | Resolved true nf => truthy_opt nf
  | _ => None
  end.

(** [dataTransfer.getData('application/x-pending-screenshot')] after
    [JSON.parse]: nothing (the empty string), text that does not parse, or
    the payload's [filename]. *)
Inductive PendingData :=
| NoPending
| BadJson (message : string)
| Payload (pending_filename : string).

(** A dropped [File]: its [name] and [type]. *)
Record File := mkFile { file_name : string; file_type : string }.

Definition lower_ascii (c : Ascii.ascii) : Ascii.ascii :=
  let n := Ascii.nat_of_ascii c in
  if Nat.leb 65 n && Nat.leb n 90 then Ascii.ascii_of_nat (n + 32) else c.

Fixpoint lower (s : string) : string :=
  match s with
  | EmptyString => EmptyString
  | String c r => String (lower_ascii c) (lower r)
  end.

Definition ends_with (suffix s : string) : bool :=
  let n := String.length s in
  let m := String.length suffix in
  Nat.leb m n && String.eqb (String.substring (n - m) m s) suffix.

(** [f.type.startsWith('image/') || /\.(png|jpg|jpeg|webp)$/i.test(f.name)] *)
Definition is_image (f : File) : bool :=
  String.prefix "image/" (file_type f)
  || existsb (λ ext, ends_with ext (lower (file_name f))) [".png"; ".jpg"; ".jpeg"; ".webp"].

(** What the user gets to see of a drop. *)
Inductive Notice :=
| ToastNoProject
| ToastImportFailed (message : string)
| ToastNoImages
| ConsoleUploadFailed (message : string)
| UploadMessageInserted (new_name : string)
| UploadMessageImported (n : nat)
| NewlyAdded (new_name : string).

(** Everything [handleDrop] reads besides the store: the page state it
    closes over ([selectedProject], [dropTargetIndex], the length of
    [sortedScreenshots] at the last render), the drag payload, and the
    backend's replies to the calls the drop makes (one per dropped file, in
    order). *)
Record DropEvent := mkDrop {
  selectedProject : option string;
  dropTargetIndex : option nat;
  renderedLength : nat;
  pendingData : PendingData;
  importReply : ApiReply;
  droppedFiles : list (File * ApiReply)
}.

(** The [for] loop of [handleDrop] over the image files: a resolved, accepted
    reply pushes its [new_filename], a rejection is logged and skipped. *)
Fixpoint upload_all (files : list (File * ApiReply)) : list string * list Notice :=
  match files with
  | [] => ([], [])
  | (_, reply) :: rest =>
      let '(names, log) := upload_all rest in
      match reply with
      | Rejected msg => (names, ConsoleUploadFailed msg :: log)
      | Resolved _ _ =>
          match accepted reply with
          | Some nf => (nf :: names, log)
          | None => (names, log)
          end
      end
  end.

(** [handleDrop] (page.tsx 265-319). [st] is the store at [getState()],
    after the awaited backend calls. The timers that clear the message after
    three seconds are left out. *)
Definition handleDrop (e : DropEvent) (st : Store) : Store * list Notice :=
  let targetIndex := default (renderedLength e) (dropTargetIndex e) in
  match truthy_opt (selectedProject e) with
  | None => (st, [ToastNoProject])
  | Some project =>
      match pendingData e with
      | BadJson msg => (st, [ToastImportFailed msg])
      | Payload _ =>
          match importReply e with
          | Rejected msg => (st, [ToastImportFailed msg])
          | Resolved _ _ =>
              match accepted (importReply e) with
              | Some nf =>
                  (insertAt targetIndex [mkScreenshot nf ""] st,
                   [UploadMessageInserted nf; NewlyAdded nf])
              | None => (st, [])
              end
          end
      | NoPending =>
          let files := filter (λ fr, is_image fr.1 = true) (droppedFiles e) in
          match files with
          | [] => (st, [ToastNoImages])
          | _ :: _ =>
              let '(uploadedFiles, log) := upload_all files in
              match last uploadedFiles with
              | Some newest =>
                  (insertAt targetIndex ((λ f, mkScreenshot f "") <$> uploadedFiles) st,
                   log ++ [UploadMessageImported (length uploadedFiles); NewlyAdded newest])
              | None => (st, log)
              end
          end
      end
  end.

(** The filenames a drop splices into the collection, none when it ends in
    an error or the backend accepts nothing. *)
Definition incoming (e : DropEvent) : list string :=
  match truthy_opt (selectedProject e) with
  | None => []
  | Some _ =>
      match pendingData e with
      | BadJson _ => []
      | Payload _ => option_list (accepted (importReply e))
      | NoPending => (upload_all (filter (λ fr, is_image fr.1 = true) (droppedFiles e))).1
      end
  end.

(** ** Keyboard and button handlers *)

(** The store actions and zoom controls the handlers invoke. *)
Inductive Action :=
| SelectAllAction
| ZoomIn
| ZoomOut
| ResetZoom
| DeleteSelected (project : string)
| DeselectAllAction
| SetPreviewIndex (i : option nat)
| PrevPreview
| NextPreview.

(** What a handler does, in order: [e.preventDefault()], a
    [window.confirm] prompt for [count] screenshots, a call. *)
Inductive Effect :=
| PreventDefault
| Confirm (count : nat)
| Call (a : Action).

#[global] Instance Action_eq_dec : EqDecision Action.
Proof. solve_decision. Defined.

#[global] Instance Effect_eq_dec : EqDecision Effect.
Proof. solve_decision. Defined.

(** [if (count <= 10 || window.confirm(...)) deleteSelected(selectedProject)]:
    [||] asks the user only when [count <= 10] is false. [confirm] is the
    user's answer to the prompt. *)
Definition confirm_then_delete (project : string) (count : nat) (confirm : nat → bool)
  : list Effect :=
  if Nat.leb count 10 then [Call (DeleteSelected project)]
  else Confirm count :: (if confirm count then [Call (DeleteSelected project)] else []).

(** The fields of the [KeyboardEvent] the handler reads. *)
Record KeyboardEvent := mkKey { key_ctrlKey : bool; key : string }.

Definition when (b : bool) (l : list Effect) : list Effect := if b then l else [].

(** The guard of the delete branch: [e.key === 'Delete' && selectedFiles.size > 0]. *)
Definition delete_key (selected : gset string) (e : KeyboardEvent) : bool :=
  String.eqb (key e) "Delete" && Nat.ltb 0 (size selected).

(** [handleKeyDown] (page.tsx 171-185). The effect installs it only while a
    project is selected, so [project] is a string; [selected] and [preview]
    are the [selectedFiles] and [previewIndex] it closes over. *)
Definition handleKeyDown (project : string) (selected : gset string) (preview : option nat)
    (confirm : nat → bool) (e : KeyboardEvent) : list Effect :=
  when (key_ctrlKey e && String.eqb (key e) "a") [PreventDefault; Call SelectAllAction]
  ++ when (key_ctrlKey e && (String.eqb (key e) "=" || String.eqb (key e) "+"))
          [PreventDefault; Call ZoomIn]
  ++ when (key_ctrlKey e && String.eqb (key e) "-") [PreventDefault; Call ZoomOut]
  ++ when (key_ctrlKey e && String.eqb (key e) "0") [PreventDefault; Call ResetZoom]
  ++ when (delete_key selected e)
          (confirm_then_delete project (size selected) confirm)
  ++ when (String.eqb (key e) "Escape") [Call DeselectAllAction; Call (SetPreviewIndex None)]
  ++ when (String.eqb (key e) "ArrowLeft" && bool_decide (preview ≠ None)) [Call PrevPreview]
  ++ when (String.eqb (key e) "ArrowRight" && bool_decide (preview ≠ None)) [Call NextPreview].

(** [handleDeleteSelected] (page.tsx 325-331), the handler of the delete
    buttons. *)
Definition handleDeleteSelected (project : option string) (selected : gset string)
    (confirm : nat → bool) : list Effect :=
  match truthy_opt project with
  | None => []
  | Some p => confirm_then_delete p (size selected) confirm
  end.

(** ** Concrete stores used in the examples *)

Definition shot (f : string) : Screenshot := mkScreenshot f "".

Definition store_of (names : list string) (sel : gset string) : Store :=
  mkStore (shot <$> names) [] sel None None false.

Definition pending_drop (target : nat) (new_name : string) : DropEvent :=
  mkDrop (Some "downloads_2024/demo") (Some target) 0 (Payload "incoming.png")
         (Resolved true (Some new_name)) [].

(** ** The page as a transition system *)

(** The user actions and backend replies that change the store: one
    operation for each store action the page calls and for each of its own
    handlers that writes to the store. [OpSetPreviewIndex] stands for
    [setPreviewIndex(null)] (page.tsx 182 and 539) and for [prevPreview] and
    [nextPreview] (183-184, 540-541), which move the preview to a position
    that is left open here. The zoom actions act on [zoom], which is not part
    of [Store]. *)
Inductive Op :=
| OpFetch (reply : FetchReply)
| OpReset
| OpDragEnd (active : string) (over : option string)
| OpCardClick (e : MouseEvent) (index : nat)
| OpSelectAll
| OpDeselectAll
| OpDeleteSelected
| OpRestoreBatch (ts : nat)
| OpDrop (e : DropEvent)
| OpSave (backend_ok : bool)
| OpApply (backend_ok : bool)
| OpSetPreviewIndex (i : option nat).

(** A card click comes from the card rendered at [index]
    ([sortedScreenshots.map((screenshot, index) => ... handleCardClick(e,
    index, screenshot.filename))], page.tsx 497-507): its filename is the one
    at that position; there is no card past the end. *)
Definition apply_op (op : Op) (st : Store) : Store :=
  match op with
  | OpFetch reply => next (fetchData reply st)
  | OpReset => reset st
  | OpDragEnd active over => next (handleDragEnd active over st)
  | OpCardClick e index =>
      match sortedScreenshots st !! index with
      | Some s => handleCardClick e index (filename s) st
      | None => st
      end
  | OpSelectAll => selectAll st
  | OpDeselectAll => deselectAll st
  | OpDeleteSelected => next (deleteSelected st)
  | OpRestoreBatch ts => next (restoreBatch ts st)
  | OpDrop e => (handleDrop e st).1
  | OpSave ok => next (saveSortOrder ok st)
  | OpApply ok => next (applySortOrder ok st)
  | OpSetPreviewIndex i => setPreviewIndex i st
  end.

(** The store after a sequence of operations, first to last. *)
Definition apply_ops (ops : list Op) (st : Store) : Store :=
  foldl (λ s op, apply_op op s) st ops.

(** Every filename held by the undo log. *)
Definition deleted_filenames (log : list DeletedBatch) : list string :=
  log ≫= (λ b, filenames (items b)).

(** The backend keeps its side of the data model: a fetched list has
    pairwise distinct filenames ("filename: unique key within a project"). *)
Definition well_formed_reply (op : Op) : Prop :=
  match op with
  | OpFetch (Screenshots l) => NoDup (filenames l)
  | _ => True
  end.

(** The names a drop brings are new: pairwise distinct and neither in the
    collection nor in the undo log. The page does not check this. *)
Definition fresh_drop (op : Op) (st : Store) : Prop :=
  match op with
  | OpDrop e =>
      NoDup (incoming e)
      ∧ ∀ f, f ∈ incoming e →
             (f ∉ filenames (sortedScreenshots st)) ∧ (f ∉ deleted_filenames (deletedBatches st))
  | _ => True
  end.

(** States the page can reach from the empty store while every fetched list
    is duplicate-free, whatever names the backend returns for a drop. *)
Inductive reachable : Store → Prop :=
| reachable_init : reachable initial_store
| reachable_step op st :
    reachable st → well_formed_reply op → reachable (apply_op op st).

(** States reached while every fetched list is duplicate-free and every drop
    brings new names. *)
Inductive reachable_fresh : Store → Prop :=
| reachable_fresh_init : reachable_fresh initial_store
| reachable_fresh_step op st :
    reachable_fresh st → well_formed_reply op → fresh_drop op st →
    reachable_fresh (apply_op op st).

(** The two invariants of the data model. *)
Definition no_duplicates (st : Store) : Prop := NoDup (filenames (sortedScreenshots st)).

Definition selection_in_collection (st : Store) : Prop :=
  ∀ f, f ∈ selectedFiles st → f ∈ filenames (sortedScreenshots st).

Definition store_invariant (st : Store) : Prop :=
  no_duplicates st ∧ selection_in_collection st.

(** Every filename of the session: those shown and those in the undo log. *)
Definition all_filenames (st : Store) : list string :=
  filenames (sortedScreenshots st) ++ deleted_filenames (deletedBatches st).

(** A store reached by a fetch of [[a]] and the drop of a pending screenshot
    that the backend names [a]. *)
Definition twice_a : Store :=
  apply_op (OpDrop (pending_drop 1 "a"))
    (apply_op (OpFetch (Screenshots [shot "a"])) initial_store).

(** A store reached by a fetch of [[a]], the deletion of [a] and the drop of
    a pending screenshot that the backend names [a] again: the collection is
    [[a]] and the undo log holds [a] in the batch with timestamp 1. *)
Definition a_shown_and_deleted : Store :=
  apply_ops [OpFetch (Screenshots [shot "a"]); OpSelectAll; OpDeleteSelected;
             OpDrop (pending_drop 0 "a")] initial_store.

(** ** Backend calls of a drop that fail *)





(** ** Saving while a save is in flight *)

(** Modelled from the spec: how the store treats a [save()] issued while
    another is in flight. "a second save() issued while one is in flight must
    be queued or coalesced (implementation choice) rather than interleaved".
    [Interleaved] is the discipline the spec rules out: every save is sent at
    once. *)
Inductive Discipline := Queued | Coalesced | Interleaved.

Definition serialized (d : Discipline) : Prop := d ≠ Interleaved.

(** Modelled from the spec: a "replace-order call". [rank] is the number of
    the [save()] call that took the snapshot [order]; a lower rank is an
    older order. *)
Record Request := mkRequest { rank : nat; order : list string }.

#[global] Instance Request_eq_dec : EqDecision Request.
Proof. solve_decision. Defined.

(** Modelled from the spec: the client, the network and the backend of
    section 5. The requests in flight reach the backend in any order; the
    blocked ones have not been sent. [stored] is the order the backend holds
    and the rank of the save that wrote it, [0] for the order it was loaded
    with. *)
Record System := mkSystem {
  collection : list string;
  saves : nat;
  in_flight : list Request;
  blocked : list Request;
  stored : Request
}.

(** Modelled from the spec: what happens in that system. A user action
    changes the collection, the user calls [save()], or a request in flight
    reaches the backend and is resolved, with success or not. *)
Inductive Event :=
| Mutate (l : list string)
| Save
| Arrive (r : Request) (ok : bool).

(** Modelled from the spec: the system after a load of the order [l]. *)
Definition init (l : list string) : System := mkSystem l 0 [] [] (mkRequest 0 l).

(** Modelled from the spec: [save()]. With nothing in flight the snapshot is
    sent; otherwise "a save in flight blocks a new save request until
    resolved": the snapshot joins the blocked ones ([Queued]) or replaces
    them ([Coalesced]). *)
Definition save (d : Discipline) (s : System) : System :=
  let r := mkRequest (S (saves s)) (collection s) in
  match d, in_flight s with
  | Interleaved, fl => mkSystem (collection s) (S (saves s)) (fl ++ [r]) (blocked s) (stored s)
  | _, [] => mkSystem (collection s) (S (saves s)) [r] (blocked s) (stored s)
  | Queued, fl => mkSystem (collection s) (S (saves s)) fl (blocked s ++ [r]) (stored s)
  | Coalesced, fl => mkSystem (collection s) (S (saves s)) fl [r] (stored s)
  end.

(** Modelled from the spec: a blocked save waits "until resolved"; once the
    request in flight is resolved the oldest blocked one is sent. *)
Definition release (s : System) : System :=
  match blocked s with
  | [] => s
  | r :: rest => mkSystem (collection s) (saves s) (in_flight s ++ [r]) rest (stored s)
  end.

(** Modelled from the spec: the backend's "idempotent full replace" of the
    order by a request in flight, and the resolution of that request at the
    client. A failed request changes nothing at the backend. *)
Definition arrive (r : Request) (ok : bool) (s : System) : option System :=
  if decide (r ∈ in_flight s) then
    Some (release (mkSystem (collection s) (saves s)
                            (filter (λ x, x ≠ r) (in_flight s)) (blocked s)
                            (if ok then r else stored s)))
  else None.

(** Modelled from the spec: one event; [None] when the request that is to
    arrive is not in flight. *)
Definition step (d : Discipline) (e : Event) (s : System) : option System :=
  match e with
  | Mutate l => Some (mkSystem l (saves s) (in_flight s) (blocked s) (stored s))
  | Save => Some (save d s)
  | Arrive r ok => arrive r ok s
  end.

(** Modelled from the spec: a sequence of events. *)
Fixpoint run (d : Discipline) (es : list Event) (s : System) : option System :=
  match es with
  | [] => Some s
  | e :: rest =>
      match step d e s with
      | Some s' => run d rest s'
      | None => None
      end
  end.

Definition is_arrival (e : Event) : Prop :=
  match e with Arrive _ _ => True | _ => False end.

Definition is_success (e : Event) : Prop :=
  match e with Arrive _ true => True | _ => False end.

(** The spec's scenario: [save()] on [[a,b]], then [save()] on [[a,b,c]]
    while the first is in flight. *)
Definition two_saves : list Event :=
  [Mutate ["a"; "b"]; Save; Mutate ["a"; "b"; "c"]; Save].

(** The two snapshots of the scenario and the order the backend starts with. *)
Definition loaded_order : Request := mkRequest 0 [].
Definition first_save : Request := mkRequest 1 ["a"; "b"].
Definition second_save : Request := mkRequest 2 ["a"; "b"; "c"].

(** Requests the backend has yet to see. *)
Definition outstanding (s : System) : list Request := in_flight s ++ blocked s.

(** What serialization maintains: at most one request is in flight, nothing
    is blocked unless one is, the outstanding requests are in the order of
    their [save()] calls, and each is newer than what the backend holds. *)
Definition serial_invariant (s : System) : Prop :=
  length (in_flight s) ≤ 1
  ∧ (in_flight s = [] → blocked s = [])
  ∧ StronglySorted lt (rank <$> outstanding s)
  ∧ (∀ r, r ∈ outstanding s → rank (stored s) < rank r ≤ saves s)
  ∧ rank (stored s) ≤ saves s.

(** The states of the scenario while its two requests are resolved:
    [anything_goes = false] restricts them to resolutions that succeeded. *)
Definition scenario_state (anything_goes : bool) (s : System) : Prop :=
  (in_flight s = [first_save] ∧ blocked s = [second_save] ∧ stored s = loaded_order)
  ∨ (in_flight s = [second_save] ∧ blocked s = []
     ∧ (stored s = first_save ∨ (anything_goes = true ∧ stored s = loaded_order)))
  ∨ (in_flight s = [] ∧ blocked s = []
     ∧ (stored s = second_save
        ∨ (anything_goes = true ∧ (stored s = first_save ∨ stored s = loaded_order)))).

(** ** Dragging over the grid *)

(** What [handleDragOver] learns about one card of the grid from its
    [getBoundingClientRect()] and the pointer: the outcomes of
    [e.clientY < rect.bottom && e.clientY > rect.top - 20], of
    [e.clientX < cardCenterX] and of [e.clientX < rect.right]. *)
Record CardHit := mkHit { in_row : bool; left_of_center : bool; left_of_right : bool }.

(** The [for] loop of [handleDragOver] (page.tsx 241-250) from card [i] on:
    the index it breaks with, [None] when it runs to the end. The card at
    hand is the last one ([i === cards.length - 1]) when no card follows. *)
Fixpoint scan_cards (i : nat) (cards : list CardHit) : option nat :=
  match cards with
  | [] => None
  | card :: rest =>
      if in_row card then
        if left_of_center card then Some i
        else if bool_decide (rest = []) || left_of_right card then Some (i + 1)
        else scan_cards (i + 1) rest
      else scan_cards (i + 1) rest
  end.

(** A card the loop passes over although another follows: the pointer is
    not in its row, or it is in its row and right of its right edge. *)
Definition passed_over (card : CardHit) : Prop :=
  in_row card = false ∨ (left_of_center card = false ∧ left_of_right card = false).

(** [let targetIndex = sortedScreenshots.length] and the loop. *)
Definition drop_target (renderedLength : nat) (cards : list CardHit) : nat :=
  default renderedLength (scan_cards 0 cards).

(** The page-local state of a drag over the content area: [isDragOver] and
    [dropTargetIndex] (named [dropTarget] here). *)
Record DragState := mkDragState { isDragOver : bool; dropTarget : option nat }.

(** What [handleDragOver] reads off the event and the DOM:
    [dataTransfer.types.includes('Files')], [includes(
    'application/x-pending-screenshot')], and the cards of [gridRef.current],
    [None] while the grid is not mounted. *)
Record DragOverEvent := mkDragOver {
  hasFiles : bool;
  hasPending : bool;
  gridCards : option (list CardHit)
}.

(** [handleDragOver] (page.tsx 225-254); [project] and [renderedLength] are
    the [selectedProject] and [sortedScreenshots.length] it closes over. *)
Definition handleDragOver (project : option string) (renderedLength : nat)
    (e : DragOverEvent) (d : DragState) : DragState :=
  match truthy_opt project with
  | None => d
  | Some _ =>
      if hasFiles e || hasPending e then
        match gridCards e with
        | Some cards => mkDragState true (Some (drop_target renderedLength cards))
        | None => mkDragState true (dropTarget d)
        end
      else d
  end.

(** [handleDragLeave] (page.tsx 256-263); [inside] is
    [contentRef.current?.contains(relatedTarget)]. *)
Definition handleDragLeave (inside : bool) (d : DragState) : DragState :=
  if inside then d else mkDragState false None.

(** The drop that follows a drag: [handleDrop] closes over the
    [dropTargetIndex] the drag left behind. *)
Definition drop_after (d : DragState) (project : option string) (renderedLength : nat)
    (pending : PendingData) (reply : ApiReply) (files : list (File * ApiReply)) : DropEvent :=
  mkDrop project (dropTarget d) renderedLength pending reply files.

(** ** The keyboard handler as a table *)

(** The shortcuts of the page, one row per key: what [handleKeyDown] would do
    if its independent [if]s were one [switch] on [e.key]. *)
Definition shortcut_table (project : string) (selected : gset string) (preview : option nat)
    (confirm : nat → bool) (e : KeyboardEvent) : list Effect :=
  if String.eqb (key e) "a" then when (key_ctrlKey e) [PreventDefault; Call SelectAllAction]
  else if String.eqb (key e) "=" || String.eqb (key e) "+"
       then when (key_ctrlKey e) [PreventDefault; Call ZoomIn]
  else if String.eqb (key e) "-" then when (key_ctrlKey e) [PreventDefault; Call ZoomOut]
  else if String.eqb (key e) "0" then when (key_ctrlKey e) [PreventDefault; Call ResetZoom]
  else if String.eqb (key e) "Delete"
       then when (Nat.ltb 0 (size selected))
                 (confirm_then_delete project (size selected) confirm)
  else if String.eqb (key e) "Escape"
       then [Call DeselectAllAction; Call (SetPreviewIndex None)]
  else if String.eqb (key e) "ArrowLeft"
       then when (bool_decide (preview ≠ None)) [Call PrevPreview]
  else if String.eqb (key e) "ArrowRight"
       then when (bool_decide (preview ≠ None)) [Call NextPreview]
  else [].

(** The keys the page binds. *)
Definition bound_keys : list string :=
  ["a"; "="; "+"; "-"; "0"; "Delete"; "Escape"; "ArrowLeft"; "ArrowRight"].

(** The notices of a drop that are error toasts. *)
Definition is_error_toast (n : Notice) : Prop :=
  match n with
  | ToastNoProject | ToastImportFailed _ | ToastNoImages => True
  | _ => False
  end.

(** ** The buttons that act on the collection *)

(** What a click asks for: a handler's effects ([handleDeleteSelected],
    [selectAll], [deselectAll]), [saveSortOrder(selectedProject)],
    [applySortOrder(selectedProject)], [restoreBatch(selectedProject,
    batch.timestamp)] or [setShowDeleted(!showDeleted)]. *)
Inductive Intent :=
| RunHandler (effects : list Effect)
| SaveSortOrder (project : string)
| ApplySortOrder (project : string)
| RestoreBatch (project : string) (ts : nat)
| ToggleShowDeleted.

Inductive ButtonId :=
| SelectToggle
| TopbarDelete
| ShowDeleted
| SaveOrder
| ApplyOrder
| Restore (ts : nat)
| BarDeselect
| BarDelete.

(** A rendered [<button>]: its [disabled] attribute and what its [onClick]
    asks for. *)
Record Button := mkButton { button : ButtonId; disabled : bool; onClick : list Intent }.

(** What an earlier render handed to the [<SelectionBar>] it mounted: its
    [selectedProject] and [selectedFiles] (the [handleDeleteSelected] passed
    as [onDelete] closes over the project and the size of the selection) and
    its [saving] flag (passed as [disabled]). *)
Record BarRender := mkBarRender {
  bar_project : option string;
  bar_selected : gset string;
  bar_saving : bool
}.

(** What is on the page: [selectedProject] and [showDeleted] of the page,
    the store and its [saving] flag, as the current render reads them, and
    the selection bar of an earlier render that is on its way out.
    [<AnimatePresence>] (page.tsx 552-561) keeps the [<SelectionBar>] it was
    last given, a [motion.div] with an exit transition of 0.2 s, on the page
    with the props of the render that mounted it until that transition is
    over; [view_exiting_bar] is that render, [None] when there is none or the
    transition is over. *)
Record PageView := mkView {
  view_project : option string;
  view_store : Store;
  view_saving : bool;
  view_showDeleted : bool;
  view_exiting_bar : option BarRender
}.

(** [() => selectedProject && f(selectedProject)] *)
Definition with_project (project : option string) (f : string → Intent) : list Intent :=
  match truthy_opt project with
  | Some p => [f p]
  | None => []
  end.

(** The action group of the top bar (page.tsx 376-410), rendered under
    [selectedProject && sortedScreenshots.length > 0]. *)
Definition topbar_actions (confirm : nat → bool) (v : PageView) : list Button :=
  let st := view_store v in
  match truthy_opt (view_project v) with
  | None => []
  | Some _ =>
      if Nat.ltb 0 (length (sortedScreenshots st)) then
        [mkButton SelectToggle false
           [RunHandler (if Nat.ltb 0 (size (selectedFiles st))
                        then [Call DeselectAllAction] else [Call SelectAllAction])]]
        ++ (if Nat.ltb 0 (size (selectedFiles st))
            then [mkButton TopbarDelete (view_saving v)
                    [RunHandler (handleDeleteSelected (view_project v) (selectedFiles st)
                                   confirm)]]
            else [])
        ++ (if Nat.ltb 0 (length (deletedBatches st))
            then [mkButton ShowDeleted false [ToggleShowDeleted]]
            else [])
        ++ (if hasChanges st
            then [mkButton SaveOrder (view_saving v)
                    (with_project (view_project v) SaveSortOrder);
                  mkButton ApplyOrder (view_saving v)
                    (with_project (view_project v) ApplySortOrder)]
            else [])
      else []
  end.

(** The panel of deleted batches (page.tsx 465-477), rendered under
    [showDeleted && deletedBatches.length > 0]: one restore button per batch. *)
Definition deleted_panel (v : PageView) : list Button :=
  let st := view_store v in
  if view_showDeleted v && Nat.ltb 0 (length (deletedBatches st)) then
    (λ batch, mkButton (Restore (timestamp batch)) (view_saving v)
                (with_project (view_project v) (λ p, RestoreBatch p (timestamp batch))))
    <$> deletedBatches st
  else [].

(** [SelectionBar] (SelectionBar.tsx): nothing for [selectedCount === 0]. *)
Definition SelectionBar (selectedCount : nat) (onDeselect onDelete : list Intent)
    (barDisabled : bool) : list Button :=
  if Nat.eqb selectedCount 0 then []
  else [mkButton BarDeselect false onDeselect; mkButton BarDelete barDisabled onDelete].

(** The selection bar a render mounts (page.tsx 553-560), under
    [selectedFiles.size > 0 && selectedProject]. *)
Definition mounted_bar (confirm : nat → bool) (project : option string)
    (selected : gset string) (saving : bool) : list Button :=
  match Nat.ltb 0 (size selected), truthy_opt project with
  | true, Some _ =>
      SelectionBar (size selected)
        [RunHandler [Call DeselectAllAction]]
        [RunHandler (handleDeleteSelected project selected confirm)]
        saving
  | _, _ => []
  end.

(** The selection bar on the page, inside [<AnimatePresence>] (page.tsx
    552-561): the bar of the current render when it mounts one; otherwise the
    bar of the earlier render that is still on its way out, with the buttons
    and handlers of that render. *)
Definition selection_bar (confirm : nat → bool) (v : PageView) : list Button :=
  let bar :=
    mounted_bar confirm (view_project v) (selectedFiles (view_store v)) (view_saving v) in
  match bar with
  | _ :: _ => bar
  | [] =>
      match view_exiting_bar v with
      | Some old => mounted_bar confirm (bar_project old) (bar_selected old) (bar_saving old)
      | None => []
      end
  end.

(** The buttons on the page that act on the collection, in document order.
    (The project selector, the zoom control, the pending panel and the
    preview panel have buttons of their own. The panel of deleted batches is
    inside an [<AnimatePresence>] too, but it is a plain [div] without an
    exit transition and leaves the page with the render that drops it.) *)
Definition action_buttons (confirm : nat → bool) (v : PageView) : list Button :=
  topbar_actions confirm v ++ deleted_panel v ++ selection_bar confirm v.

(** What the user can ask for with one click: the intents of the buttons
    that are not disabled. *)
Definition clickable (confirm : nat → bool) (v : PageView) : list Intent :=
  filter (λ b, disabled b = false) (action_buttons confirm v) ≫= onClick.

(** ** Labels and names shown on the page *)

(** The characters ['/'] and ['0']. *)
Definition slash : Ascii.ascii := Ascii.ascii_of_nat 47.
Definition digit_zero : Ascii.ascii := Ascii.ascii_of_nat 48.

(** [count] copies of one character. *)
Fixpoint repeat_char (count : nat) (c : Ascii.ascii) : string :=
  match count with
  | 0 => ""
  | S n => String c (repeat_char n c)
  end.

(** [String.prototype.padStart(targetLength, padString)] for a pad string of
    one character: the string itself when it is long enough, else pad
    characters in front up to the target length. *)
Definition padStart (targetLength : nat) (pad : Ascii.ascii) (s : string) : string :=
  repeat_char (targetLength - String.length s) pad +:+ s.

(** The number on a card ([SortableScreenshot], page.tsx 802):
    [String(index + 1).padStart(4, '0')]. [String] of a natural number is its
    decimal notation. *)
Definition index_label (index : nat) : string :=
  padStart 4 digit_zero (pretty (index + 1)).

(** [String.prototype.split(separator)] for a separator of one character. *)
Fixpoint split_on (sep : Ascii.ascii) (s : string) : list string :=
  match s with
  | EmptyString => [""]
  | String c rest =>
      if Ascii.eqb c sep then "" :: split_on sep rest
      else match split_on sep rest with
           | head :: tail => String c head :: tail
           | [] => [String c ""]
           end
  end.

(** [String.prototype.includes(c)] for one character. *)
Fixpoint includes (c : Ascii.ascii) (s : string) : bool :=
  match s with
  | EmptyString => false
  | String c' rest => Ascii.eqb c' c || includes c rest
  end.

(** [Array.prototype.join(separator)] *)
Fixpoint join (sep : string) (parts : list string) : string :=
  match parts with
  | [] => ""
  | [part] => part
  | part :: rest => part +:+ sep +:+ join sep rest
  end.

(** [appName] of [getLogoUrl] ([ProjectSelector]):
    [projectName.includes('/') ? projectName.split('/').pop() : projectName].
    [pop()] of an empty array would be [undefined]. *)
Definition appName (projectName : string) : string :=
  if includes slash projectName
  then default "undefined" (last (split_on slash projectName))
  else projectName.

(** [getLogoUrl] ([ProjectSelector]); [API_BASE] comes from the environment. *)
Definition getLogoUrl (API_BASE projectName : string) : string :=
  API_BASE +:+ "/api/logo/" +:+ appName projectName.

(** [String.prototype.replace(pattern, replacement)] for a string pattern and
    a replacement without [$]: the first occurrence is replaced. *)
Fixpoint replace_first (pattern replacement s : string) : string :=
  if String.prefix pattern s
  then replacement +:+ String.substring (String.length pattern)
                         (String.length s - String.length pattern) s
  else match s with
       | EmptyString => EmptyString
       | String c rest => String c (replace_first pattern replacement rest)
       end.

(** [displayProjectName] (page.tsx 337):
    [selectedProject?.replace('downloads_2024/', '') || '']. *)
Definition displayProjectName (selectedProject : option string) : string :=
  match selectedProject with
  | Some project => replace_first "downloads_2024/" "" project
  | None => ""
  end.

(** ** Importing from the pending panel *)

(** What [importScreenshot] resolves to, as [handleImport] of the pending
    panel reads it: [success], [new_filename] and [message]. *)
Record ImportResult := mkImportResult {
  result_success : bool;
  result_new_filename : option string;
  result_message : string
}.

Inductive ImportOutcome :=
| ImportResolved (result : ImportResult)
| ImportRejected (message : string).

(** What [getPendingScreenshots] comes back with: [data.screenshots] (their
    filenames) or a rejection. *)
Inductive PendingReply :=
| PendingList (screenshots : list string)
| PendingFailed (message : string).

(** What the pending panel does, in order: its state setters, its toasts and
    console messages, its [onImportSuccess] callback, and [fetchData] of
    the store called by the page in that callback. *)
Inductive PanelEffect :=
| SetLoading (b : bool)
| SetScreenshots (screenshots : list string)
| SetImporting (f : option string)
| SetLastImported (f : option string)
| PanelConsoleError (message : string)
| PanelToastNoProject
| PanelToastSuccess (name : string)
| PanelToastImportFailed (message : string)
| FetchData (project : string).

(** [loadPending] (PendingPanel.tsx 39-49): [try]/[catch]/[finally]. *)
Definition loadPending (reply : PendingReply) : list PanelEffect :=
  [SetLoading true]
  ++ match reply with
     | PendingList l => [SetScreenshots l]
     | PendingFailed msg => [PanelConsoleError msg]
     end
  ++ [SetLoading false].

(** [handleImportSuccess] of the page (page.tsx 321-323), handed to the panel
    as [onImportSuccess]. *)
Definition handleImportSuccess (selectedProject : option string) : list PanelEffect :=
  match truthy_opt selectedProject with
  | Some project => [FetchData project]
  | None => []
  end.

(** [result.new_filename || filename] *)
Definition shown_name (result : ImportResult) (filename : string) : string :=
  default filename (truthy_opt (result_new_filename result)).

(** [handleImport] (PendingPanel.tsx 89-115) with the page's callback in
    place; the panel and the page are given the same [selectedProject]. The
    timer that clears [lastImported] after three seconds is left out. *)
Definition handleImport (selectedProject : option string) (filename : string)
    (reply : ImportOutcome) (pending : PendingReply) : list PanelEffect :=
  match truthy_opt selectedProject with
  | None => [PanelToastNoProject]
  | Some project =>
      [SetImporting (Some filename)]
      ++ match reply with
         | ImportResolved result =>
             if result_success result then
               [SetLastImported (Some (shown_name result filename));
                PanelToastSuccess (shown_name result filename)]
               ++ loadPending pending
               ++ handleImportSuccess selectedProject
             else [PanelToastImportFailed (result_message result)]
         | ImportRejected msg => [PanelConsoleError msg; PanelToastImportFailed msg]
         end
      ++ [SetImporting None]
  end.

(** * Properties *)

(** ** The single-element move *)

Section move_item.
Context {A : Type}.
Implicit Types (l : list A) (x : A).

Lemma move_item_eq from to l x :
  l !! from = Some x →
  move_item from to l = take to (delete from l) ++ x :: drop to (delete from l).
Proof. intros H. unfold move_item. by rewrite H. Qed.

Lemma move_item_perm from to l : move_item from to l ≡ₚ l.
Proof.
  unfold move_item. destruct (l !! from) as [x|] eqn:Hx; [|done].
  rewrite <- Permutation_middle, take_drop.
  symmetry. by apply delete_Permutation.
Qed.

Lemma move_item_length from to l : length (move_item from to l) = length l.
Proof. apply Permutation_length, move_item_perm. Qed.

Lemma move_item_lookup from to l x :
  l !! from = Some x → to < length l → move_item from to l !! to = Some x.
Proof.
  intros Hx Hto. rewrite (move_item_eq _ _ _ _ Hx).
  pose proof (lookup_lt_Some _ _ _ Hx) as Hfrom.
  assert (length (take to (delete from l)) = to) as Hlen.
  { rewrite length_take, length_delete by eauto. lia. }
  rewrite lookup_app_r by lia. rewrite Hlen, Nat.sub_diag. done.
Qed.

Lemma move_item_others from to l :
  from < length l → to < length l →
  delete to (move_item from to l) = delete from l.
Proof.
  intros Hfrom Hto.
  destruct (lookup_lt_is_Some_2 l from Hfrom) as [x Hx].
  rewrite (move_item_eq _ _ _ _ Hx).
  assert (length (take to (delete from l)) = to) as Hlen.
  { rewrite length_take, length_delete by eauto. lia. }
  rewrite <- Hlen at 1.
  rewrite delete_middle. apply take_drop.
Qed.

Lemma move_item_same i l : move_item i i l = l.
Proof.
  unfold move_item. destruct (l !! i) as [x|] eqn:Hx; [|done].
  pose proof (lookup_lt_Some _ _ _ Hx) as Hi.
  assert (length (take i l) = i) as Hlen by (rewrite length_take; lia).
  rewrite delete_take_drop.
  assert (take i (take i l ++ drop (S i) l) = take i l) as ->.
  { rewrite <- Hlen at 1. apply take_app_length. }
  assert (drop i (take i l ++ drop (S i) l) = drop (S i) l) as ->.
  { rewrite <- Hlen at 1. apply drop_app_length. }
  by apply take_drop_middle.
Qed.
End move_item.

(** ** Reordering *)

Lemma findIndex_lookup (p : Screenshot → bool) (l : list Screenshot) (s : Screenshot) :
  s ∈ l → p s = true →
  ∃ i s', findIndex p l = Z.of_nat i ∧ l !! i = Some s' ∧ p s' = true.
Proof.
  intros Hin Hp. unfold findIndex.
  destruct (list_find (λ s, p s = true) l) as [[i s']|] eqn:Hfind.
  - apply list_find_Some in Hfind as (Hl & Hs' & _). eauto.
  - apply list_find_None in Hfind. rewrite Forall_forall in Hfind.
    by destruct (Hfind s Hin).
Qed.

Lemma findIndex_absent (p : Screenshot → bool) (l : list Screenshot) :
  (∀ s, s ∈ l → p s = false) → findIndex p l = (-1)%Z.
Proof.
  intros Hno. unfold findIndex.
  destruct (list_find (λ s, p s = true) l) as [[i s']|] eqn:Hfind; [|done].
  apply list_find_Some in Hfind as (Hl & Hs' & _).
  apply list_elem_of_lookup_2 in Hl. rewrite (Hno _ Hl) in Hs'. done.
Qed.

Lemma reorder_valid (st : Store) (i j : nat) :
  i < length (sortedScreenshots st) → j < length (sortedScreenshots st) → i ≠ j →
  reorder (Z.of_nat i) (Z.of_nat j) st
  = done_ok (with_changes true (with_screenshots (move_item i j (sortedScreenshots st)) st)).
Proof.
  intros Hi Hj Hne. unfold reorder.
  rewrite decide_True by lia. rewrite decide_False by lia.
  by rewrite !Nat2Z.id.
Qed.

Lemma reorder_same (st : Store) (i : Z) : next (reorder i i st) = st.
Proof.
  unfold reorder. case_decide; [|done]. by rewrite decide_True.
Qed.

Lemma reorder_in_range (st : Store) (i j : Z) :
  (0 ≤ i < Z.of_nat (length (sortedScreenshots st)))%Z →
  (0 ≤ j < Z.of_nat (length (sortedScreenshots st)))%Z →
  raised (reorder i j st) = None.
Proof.
  intros Hi Hj. unfold reorder. rewrite decide_True by done. by case_decide.
Qed.

Lemma findIndex_filename (l : list Screenshot) (f : string) :
  f ∈ filenames l →
  ∃ i, findIndex (λ s, bool_decide (filename s = f)) l = Z.of_nat i ∧ i < length l.
Proof.
  intros (s & -> & Hs)%list_elem_of_fmap.
  destruct (findIndex_lookup (λ x, bool_decide (filename x = filename s)) l s Hs)
    as (i & s' & Hi & Hl & _); [by apply bool_decide_eq_true|].
  exists i. split; [done|]. by eapply lookup_lt_Some.
Qed.

(** Dragging one card of the grid onto another is a [reorder] on two valid
    indices. *)
Lemma handleDragEnd_reorders (st : Store) (active over : string) :
  active ≠ over →
  active ∈ filenames (sortedScreenshots st) →
  over ∈ filenames (sortedScreenshots st) →
  ∃ i j, i < length (sortedScreenshots st) ∧ j < length (sortedScreenshots st)
         ∧ handleDragEnd active (Some over) st = reorder (Z.of_nat i) (Z.of_nat j) st.
Proof.
  intros Hne (i & Hi & Hilt)%findIndex_filename (j & Hj & Hjlt)%findIndex_filename.
  exists i, j. split_and!; [done|done|].
  unfold handleDragEnd. rewrite decide_True by done. by rewrite Hi, Hj.
Qed.

(** A drag that ends on no card, or on the card it started from, or that
    names a card the collection does not hold, leaves the store as it is. *)
Lemma handleDragEnd_elsewhere (st : Store) (active : string) (over : option string) :
  over = None ∨ over = Some active ∨ active ∉ filenames (sortedScreenshots st) →
  next (handleDragEnd active over st) = st.
Proof.
  intros [->|[->|Hnot]]; [done|..].
  - unfold handleDragEnd. by rewrite decide_False by auto.
  - unfold handleDragEnd. destruct over as [over_id|]; [|done].
    case_decide; [|done].
    rewrite (findIndex_absent _ (sortedScreenshots st)).
    + unfold reorder. by rewrite decide_False by lia.
    + intros s Hs. apply bool_decide_eq_false. intros Hf. apply Hnot.
      apply list_elem_of_fmap. eauto.
Qed.

(** C1. For every collection and every pair of valid indices, [reorder]
    succeeds and yields a collection with the same multiset of filenames and
    the same length; the moved element sits at [toIndex] and all the others
    keep their relative order (taking the moved element out of the old and of
    the new collection leaves the same list); it changes nothing when the two
    indices are equal and sets the dirty flag otherwise. On [[a,b,c,d]],
    [reorder(0,3)] yields [[b,c,d,a]], also when it comes from dragging [a]
    onto [d]. *)
Theorem reorder_moves_one_element (st : Store) (fromIndex toIndex : Z) :
  (0 ≤ fromIndex < Z.of_nat (length (sortedScreenshots st)))%Z →
  (0 ≤ toIndex < Z.of_nat (length (sortedScreenshots st)))%Z →
  let st' := next (reorder fromIndex toIndex st) in
  raised (reorder fromIndex toIndex st) = None
  ∧ filenames (sortedScreenshots st') ≡ₚ filenames (sortedScreenshots st)
  ∧ length (sortedScreenshots st') = length (sortedScreenshots st)
  ∧ sortedScreenshots st' !! Z.to_nat toIndex = sortedScreenshots st !! Z.to_nat fromIndex
  ∧ delete (Z.to_nat toIndex) (sortedScreenshots st')
    = delete (Z.to_nat fromIndex) (sortedScreenshots st)
  ∧ (fromIndex = toIndex → st' = st)
  ∧ (fromIndex ≠ toIndex → hasChanges st' = true)
  ∧ selectedFiles st' = selectedFiles st
  ∧ deletedBatches st' = deletedBatches st
  ∧ filenames (sortedScreenshots (next (reorder 0 3 (store_of ["a"; "b"; "c"; "d"] ∅))))
    = ["b"; "c"; "d"; "a"]
  ∧ filenames (sortedScreenshots
       (next (handleDragEnd "a" (Some "d") (store_of ["a"; "b"; "c"; "d"] ∅))))
    = ["b"; "c"; "d"; "a"].
Proof.
  intros Hfrom Hto st'.
  destruct (decide (fromIndex = toIndex)) as [->|Hne].
  - subst st'. rewrite reorder_same.
    split; [unfold reorder; rewrite decide_True by lia; by rewrite decide_True|].
    repeat split; try done.
  - set (i := Z.to_nat fromIndex). set (j := Z.to_nat toIndex).
    assert (fromIndex = Z.of_nat i) as Ei by (subst i; lia).
    assert (toIndex = Z.of_nat j) as Ej by (subst j; lia).
    assert (i < length (sortedScreenshots st)) as Hi by lia.
    assert (j < length (sortedScreenshots st)) as Hj by lia.
    assert (i ≠ j) as Hij by lia.
    subst st'. rewrite Ei, Ej, (reorder_valid st i j Hi Hj Hij). simpl.
    destruct (lookup_lt_is_Some_2 _ _ Hi) as [x Hx].
    split; [done|].
    split; [unfold filenames; apply fmap_Permutation, move_item_perm|].
    split; [apply move_item_length|].
    split; [rewrite Hx; by apply move_item_lookup|].
    split; [by apply move_item_others|].
    split; [intros E; lia|].
    repeat split; done.
Qed.

Lemma reorder_moves_one_element_witness :
  (0 ≤ 0 < Z.of_nat (length (sortedScreenshots (store_of ["a"; "b"; "c"; "d"] ∅))))%Z
  ∧ (0 ≤ 3 < Z.of_nat (length (sortedScreenshots (store_of ["a"; "b"; "c"; "d"] ∅))))%Z
  ∧ filenames (sortedScreenshots (next (reorder 0 3 (store_of ["a"; "b"; "c"; "d"] ∅))))
    ≡ₚ filenames (sortedScreenshots (store_of ["a"; "b"; "c"; "d"] ∅)).
Proof.
  assert (0 ≤ 0 < Z.of_nat (length (sortedScreenshots (store_of ["a"; "b"; "c"; "d"] ∅))))%Z
    as H0 by (simpl; lia).
  assert (0 ≤ 3 < Z.of_nat (length (sortedScreenshots (store_of ["a"; "b"; "c"; "d"] ∅))))%Z
    as H3 by (simpl; lia).
  split; [exact H0|]. split; [exact H3|].
  exact (proj1 (proj2 (reorder_moves_one_element _ 0 3 H0 H3))).
Defined.

(** ** Soft delete and undo *)

Lemma next_timestamp_fresh (log : list DeletedBatch) (b : DeletedBatch) :
  b ∈ log → timestamp b < next_timestamp log.
Proof.
  intros Hb. unfold next_timestamp.
  assert (timestamp b ≤ max_list (timestamp <$> log)); [|lia].
  apply max_list_elem_of_le, list_elem_of_fmap. eauto.
Qed.

Lemma deleteSelected_nonempty (st : Store) :
  selectedFiles st ≠ ∅ →
  deleteSelected st
  = done_ok (mkStore
      (filter (λ s, ¬ is_selected (selectedFiles st) s) (sortedScreenshots st))
      (deletedBatches st ++
         [mkBatch (next_timestamp (deletedBatches st))
                  (filter (is_selected (selectedFiles st)) (sortedScreenshots st))
                  (length (filter (is_selected (selectedFiles st)) (sortedScreenshots st)))])
      ∅ (previewIndex st) (lastClickedIndex st) true).
Proof. intros Hne. unfold deleteSelected. by rewrite decide_False. Qed.

Lemma list_find_newest (log : list DeletedBatch) (batch : DeletedBatch) :
  (∀ b, b ∈ log → timestamp b < timestamp batch) →
  list_find (has_timestamp (timestamp batch)) (log ++ [batch]) = Some (length log, batch).
Proof.
  intros Hlt. apply list_find_Some. split_and!.
  - by rewrite lookup_app_r, Nat.sub_diag by lia.
  - done.
  - intros j y Hy Hj. rewrite lookup_app_l in Hy by lia.
    apply list_elem_of_lookup_2, Hlt in Hy. unfold has_timestamp. lia.
Qed.

Lemma restoreBatch_absent (ts : nat) (st : Store) :
  (∀ b, b ∈ deletedBatches st → timestamp b ≠ ts) →
  restoreBatch ts st = failed st BatchNotFoundError.
Proof.
  intros Hno. unfold restoreBatch.
  destruct (list_find _ _) as [[i b]|] eqn:Hfind; [|done].
  apply list_find_Some in Hfind as (Hb & Hts & _).
  apply list_elem_of_lookup_2 in Hb. by destruct (Hno b Hb).
Qed.

(** C3. With a non-empty selection, [deleteSelected] keeps exactly the
    screenshots whose filename is not selected, in their order; appends one
    batch to the undo log holding exactly the selected screenshots, in their
    order, counted, under a timestamp greater than every timestamp in the
    log; empties the selection; sets the dirty flag. With an empty selection
    it fails with [EmptySelectionError] and changes nothing. On [[a,b,c]] with
    [{b}] selected the collection becomes [[a,c]] and the log one batch with
    items [[b]]. *)
Theorem deleteSelected_moves_selection_to_batch (st : Store) :
  (selectedFiles st ≠ ∅ →
   let st' := next (deleteSelected st) in
   raised (deleteSelected st) = None
   ∧ (∀ s, s ∈ sortedScreenshots st' ↔
           s ∈ sortedScreenshots st ∧ filename s ∉ selectedFiles st)
   ∧ sortedScreenshots st' `sublist_of` sortedScreenshots st
   ∧ (∃ batch, deletedBatches st' = deletedBatches st ++ [batch]
        ∧ (∀ s, s ∈ items batch ↔ s ∈ sortedScreenshots st ∧ filename s ∈ selectedFiles st)
        ∧ items batch `sublist_of` sortedScreenshots st
        ∧ count batch = length (items batch)
        ∧ (∀ b, b ∈ deletedBatches st → timestamp b < timestamp batch))
   ∧ selectedFiles st' = ∅
   ∧ hasChanges st' = true)
  ∧ (selectedFiles st = ∅ →
     raised (deleteSelected st) = Some EmptySelectionError ∧ next (deleteSelected st) = st)
  ∧ (let st' := next (deleteSelected (store_of ["a"; "b"; "c"] {["b"]})) in
     sortedScreenshots st' = [shot "a"; shot "c"]
     ∧ deletedBatches st' = [mkBatch 1 [shot "b"] 1]).
Proof.
  split; [|split].
  - intros Hne st'. subst st'. rewrite (deleteSelected_nonempty st Hne). simpl.
    split; [done|].
    split. { intros s. rewrite list_elem_of_filter. unfold is_selected. tauto. }
    split; [apply sublist_filter|].
    split; [|done].
    eexists. split; [done|]. simpl.
    split. { intros s. rewrite list_elem_of_filter. unfold is_selected. tauto. }
    split; [apply sublist_filter|].
    split; [done|]. apply next_timestamp_fresh.
  - intros Hempty. unfold deleteSelected. by rewrite decide_True.
  - by vm_compute.
Qed.

Lemma deleteSelected_moves_selection_to_batch_witness :
  selectedFiles (store_of ["a"; "b"; "c"] {["b"]}) ≠ ∅
  ∧ selectedFiles (next (deleteSelected (store_of ["a"; "b"; "c"] {["b"]}))) = ∅
  ∧ selectedFiles (store_of ["a"; "b"; "c"] ∅) = ∅
  ∧ raised (deleteSelected (store_of ["a"; "b"; "c"] ∅)) = Some EmptySelectionError.
Proof.
  assert (selectedFiles (store_of ["a"; "b"; "c"] {["b"]}) ≠ ∅) as Hne.
  { simpl. apply non_empty_singleton_L. }
  assert (selectedFiles (store_of ["a"; "b"; "c"] ∅) = ∅) as He by reflexivity.
  split; [exact Hne|].
  split.
  - exact (proj1 (proj2 (proj2 (proj2 (proj2
      (proj1 (deleteSelected_moves_selection_to_batch _) Hne)))))).
  - split; [exact He|].
    exact (proj1 (proj1 (proj2 (deleteSelected_moves_selection_to_batch _)) He)).
Defined.

(** C4. [deleteSelected] on a non-empty selection followed at once by
    [restoreBatch] on the timestamp of the batch it created succeeds and
    gives a collection with the filenames of the original one (the same
    multiset, hence the same set): the survivors in their order, then the
    restored items appended at the end; the undo log is the original one
    again and the dirty flag is set. [restoreBatch] with a timestamp no batch
    of the log carries fails with [BatchNotFoundError] and changes nothing. *)
Theorem delete_then_restore (st : Store) :
  selectedFiles st ≠ ∅ →
  let st1 := next (deleteSelected st) in
  let ts := next_timestamp (deletedBatches st) in
  let st2 := next (restoreBatch ts st1) in
  (∃ batch, deletedBatches st1 = deletedBatches st ++ [batch] ∧ timestamp batch = ts)
  ∧ raised (restoreBatch ts st1) = None
  ∧ (∀ f, f ∈ filenames (sortedScreenshots st2) ↔ f ∈ filenames (sortedScreenshots st))
  ∧ filenames (sortedScreenshots st2) ≡ₚ filenames (sortedScreenshots st)
  ∧ sortedScreenshots st2
    = sortedScreenshots st1
      ++ filter (is_selected (selectedFiles st)) (sortedScreenshots st)
  ∧ deletedBatches st2 = deletedBatches st
  ∧ hasChanges st2 = true
  ∧ (∀ st0 ts0, (∀ b, b ∈ deletedBatches st0 → timestamp b ≠ ts0) →
       raised (restoreBatch ts0 st0) = Some BatchNotFoundError
       ∧ next (restoreBatch ts0 st0) = st0).
Proof.
  intros Hne st1 ts st2. subst st1 st2 ts.
  rewrite (deleteSelected_nonempty st Hne). simpl.
  set (removed := filter (is_selected (selectedFiles st)) (sortedScreenshots st)).
  set (kept := filter (λ s, ¬ is_selected (selectedFiles st) s) (sortedScreenshots st)).
  set (batch := mkBatch (next_timestamp (deletedBatches st)) removed (length removed)).
  assert (filenames (kept ++ removed) ≡ₚ filenames (sortedScreenshots st)) as Hperm.
  { unfold filenames. apply fmap_Permutation.
    rewrite (Permutation_app_comm kept removed). apply filter_app_complement. }
  unfold restoreBatch. simpl.
  change (next_timestamp (deletedBatches st)) with (timestamp batch).
  rewrite (list_find_newest (deletedBatches st) batch)
    by (intros b Hb; by apply next_timestamp_fresh).
  simpl. rewrite delete_middle, app_nil_r.
  split; [by exists batch|].
  split; [done|].
  split; [intros f; by rewrite Hperm|].
  split; [done|].
  split; [done|].
  split; [done|].
  split; [done|].
  intros st0 ts0 Hno. pose proof (restoreBatch_absent ts0 st0 Hno) as E.
  unfold restoreBatch in E. by rewrite E.
Qed.

Lemma delete_then_restore_witness :
  selectedFiles (store_of ["a"; "b"; "c"] {["b"]}) ≠ ∅
  ∧ deletedBatches
      (next (restoreBatch (next_timestamp (deletedBatches (store_of ["a"; "b"; "c"] {["b"]})))
               (next (deleteSelected (store_of ["a"; "b"; "c"] {["b"]})))))
    = deletedBatches (store_of ["a"; "b"; "c"] {["b"]}).
Proof.
  assert (selectedFiles (store_of ["a"; "b"; "c"] {["b"]}) ≠ ∅) as Hne.
  { simpl. apply non_empty_singleton_L. }
  split; [exact Hne|].
  exact (proj1 (proj2 (proj2 (proj2 (proj2 (proj2 (delete_then_restore _ Hne))))))).
Defined.

(** ** Range selection *)

Lemma elem_of_slice {A} (a b : nat) (l : list A) (x : A) :
  x ∈ slice a b l ↔ ∃ k, a ≤ k < b ∧ l !! k = Some x.
Proof.
  unfold slice. rewrite list_elem_of_lookup. split.
  - intros [i Hi]. apply lookup_take_Some in Hi as [Hi Hlt].
    rewrite lookup_drop in Hi. exists (a + i). split; [lia|done].
  - intros (k & Hk & Hx). exists (k - a).
    apply lookup_take_Some. split; [|lia].
    rewrite lookup_drop. by replace (a + (k - a)) with k by lia.
Qed.

Lemma selectRange_selection (i j : nat) (f : string) (st : Store) :
  selectedFiles (selectRange i j f st)
  = list_to_set (filename <$> slice (Nat.min i j) (Nat.max i j + 1) (sortedScreenshots st)).
Proof. reflexivity. Qed.

(** C5. A shift-click range selection gives the same selection whichever of
    the two cards was clicked first, whatever was selected before: the
    filenames at the positions between the two indices, both included. So do
    [selectRange(2, 5)] and [selectRange(5, 2)] on seven screenshots. *)
Theorem selectRange_order_independent
    (st : Store) (i j : nat) (f f' : string) (previous : gset string) :
  selectedFiles (selectRange i j f st) = selectedFiles (selectRange j i f' st)
  ∧ selectedFiles (selectRange i j f (with_selection previous st))
    = selectedFiles (selectRange i j f st)
  ∧ (∀ g, g ∈ selectedFiles (selectRange i j f st) ↔
          ∃ k s, Nat.min i j ≤ k ≤ Nat.max i j
                 ∧ sortedScreenshots st !! k = Some s ∧ filename s = g)
  ∧ sortedScreenshots (selectRange i j f st) = sortedScreenshots st
  ∧ selectedFiles (selectRange 2 5 "c" (store_of ["a"; "b"; "c"; "d"; "e"; "f"; "g"] {["a"]}))
    = {["c"; "d"; "e"; "f"]}
  ∧ selectedFiles (selectRange 5 2 "f" (store_of ["a"; "b"; "c"; "d"; "e"; "f"; "g"] {["a"]}))
    = {["c"; "d"; "e"; "f"]}.
Proof.
  split_and!.
  - rewrite !selectRange_selection. by rewrite (Nat.min_comm j i), (Nat.max_comm j i).
  - by rewrite !selectRange_selection.
  - intros g. rewrite selectRange_selection, elem_of_list_to_set, list_elem_of_fmap.
    split.
    + intros (s & -> & Hs). apply elem_of_slice in Hs as (k & Hk & Hs).
      exists k, s. split_and!; [lia|lia|done|done].
    + intros (k & s & Hk & Hs & <-). exists s. split; [done|].
      apply elem_of_slice. exists k. split; [lia|done].
  - reflexivity.
  - rewrite selectRange_selection. apply set_eq. intros x. vm_compute slice.
    set_solver.
  - rewrite selectRange_selection. apply set_eq. intros x. vm_compute slice.
    set_solver.
Qed.

(** ** Drop insertion *)

Lemma slice_0 {A} (n : nat) (l : list A) : slice 0 n l = take n l.
Proof. unfold slice. by rewrite Nat.sub_0_r. Qed.

Lemma insertAt_screenshots (index : nat) (new : list Screenshot) (st : Store) :
  sortedScreenshots (insertAt index new st)
  = take index (sortedScreenshots st) ++ new ++ drop index (sortedScreenshots st).
Proof. unfold insertAt. simpl. by rewrite slice_0. Qed.

Lemma insertAt_perm (index : nat) (new : list Screenshot) (st : Store) :
  sortedScreenshots (insertAt index new st) ≡ₚ new ++ sortedScreenshots st.
Proof.
  rewrite insertAt_screenshots.
  rewrite <- (take_drop index (sortedScreenshots st)) at 3.
  rewrite !app_assoc. apply Permutation_app_tail, Permutation_app_comm.
Qed.

(** What a drop does to the store: nothing when it brings no filename,
    the splice of its filenames at the target otherwise. *)
Lemma handleDrop_store (e : DropEvent) (st : Store) :
  (handleDrop e st).1
  = match incoming e with
    | [] => st
    | _ :: _ =>
        insertAt (default (renderedLength e) (dropTargetIndex e))
                 ((λ f, mkScreenshot f "") <$> incoming e) st
    end.
Proof.
  unfold handleDrop, incoming.
  destruct (truthy_opt (selectedProject e)) as [project|]; [|done].
  destruct (pendingData e) as [|msg|pf].
  - destruct (filter _ (droppedFiles e)) as [|fr files] eqn:Hfiles; [done|].
    destruct (upload_all (fr :: files)) as [names log] eqn:Hup. simpl.
    destruct names as [|n names]; [done|].
    destruct (last (n :: names)) eqn:Hlast; [done|].
    by apply last_None in Hlast.
  - done.
  - destruct (importReply e) as [ok nf|msg]; [|done].
    destruct (accepted (Resolved ok nf)); done.
Qed.

(** The upload loop read as a whole: the names are the accepted replies, in
    order; the log holds one entry per rejected upload, in order. *)
Lemma upload_all_spec (files : list (File * ApiReply)) :
  upload_all files
  = (omap (λ fr, accepted fr.2) files,
     omap (λ fr, match fr.2 with
                 | Rejected msg => Some (ConsoleUploadFailed msg)
                 | Resolved _ _ => None
                 end) files).
Proof.
  induction files as [|[file reply] rest IH]; [done|].
  simpl. rewrite IH. destruct reply as [[] [nf|]|msg]; simpl; try done.
  by destruct (truthy nf).
Qed.

Lemma upload_log_only_console (files : list (File * ApiReply)) (n : Notice) :
  n ∈ (upload_all files).2 → ∃ msg, n = ConsoleUploadFailed msg.
Proof.
  rewrite upload_all_spec. simpl. intros ([file reply] & _ & Hn)%list_elem_of_omap.
  destruct reply as [ok nf|msg]; [done|]. injection Hn as <-. eauto.
Qed.

Lemma insertAt_never_noop (index : nat) (new : list Screenshot) (st : Store) :
  new ≠ [] → sortedScreenshots (insertAt index new st) ≠ sortedScreenshots st.
Proof.
  intros Hnew Heq. apply (f_equal length) in Heq.
  rewrite (Permutation_length (insertAt_perm index new st)), length_app in Heq.
  destruct new; [done|]. simpl in Heq. lia.
Qed.






(** C6. For every collection and every index up to its length, the drop
    splices the items in at that index: the elements before the index stay
    where they are, then come the new items in their order, then the
    remaining elements; the dirty flag is set and selection and undo log are
    left alone. [insertAt(1, [x])] on [[a,b]] yields [[a,x,b]], as does the
    drop of a pending screenshot the backend names [x] at position 1. *)
Theorem insertAt_splices (st : Store) (index : nat) (new : list Screenshot) :
  index ≤ length (sortedScreenshots st) →
  let st' := insertAt index new st in
  sortedScreenshots st'
  = take index (sortedScreenshots st) ++ new ++ drop index (sortedScreenshots st)
  ∧ (∀ k, k < index → sortedScreenshots st' !! k = sortedScreenshots st !! k)
  ∧ (∀ k, k < length new → sortedScreenshots st' !! (index + k) = new !! k)
  ∧ (∀ k, index ≤ k →
          sortedScreenshots st' !! (length new + k) = sortedScreenshots st !! k)
  ∧ length (sortedScreenshots st') = length (sortedScreenshots st) + length new
  ∧ hasChanges st' = true
  ∧ selectedFiles st' = selectedFiles st
  ∧ deletedBatches st' = deletedBatches st
  ∧ filenames (sortedScreenshots (insertAt 1 [shot "x"] (store_of ["a"; "b"] ∅)))
    = ["a"; "x"; "b"]
  ∧ (handleDrop (pending_drop 1 "x") (store_of ["a"; "b"] ∅)).1
    = insertAt 1 [shot "x"] (store_of ["a"; "b"] ∅).
Proof.
  intros Hindex st'. subst st'.
  assert (length (take index (sortedScreenshots st)) = index) as Hlen
    by (rewrite length_take; lia).
  rewrite insertAt_screenshots.
  split_and!; try done.
  - intros k Hk. rewrite lookup_app_l by lia. by apply lookup_take_lt.
  - intros k Hk. rewrite lookup_app_r by lia.
    rewrite Hlen. replace (index + k - index) with k by lia.
    by apply lookup_app_l.
  - intros k Hk. rewrite lookup_app_r by lia. rewrite Hlen.
    rewrite lookup_app_r by lia. rewrite lookup_drop. f_equal. lia.
  - rewrite !length_app, Hlen, length_drop. lia.
Qed.

Lemma insertAt_splices_witness :
  1 ≤ length (sortedScreenshots (store_of ["a"; "b"] ∅))
  ∧ length (sortedScreenshots (insertAt 1 [shot "x"] (store_of ["a"; "b"] ∅)))
    = length (sortedScreenshots (store_of ["a"; "b"] ∅)) + length [shot "x"].
Proof.
  assert (1 ≤ length (sortedScreenshots (store_of ["a"; "b"] ∅))) as H1 by (simpl; lia).
  split; [exact H1|].
  exact (proj1 (proj2 (proj2 (proj2 (proj2 (insertAt_splices _ 1 [shot "x"] H1)))))).
Defined.

(** *** A filename that is already there *)

(** C2, as stated, fails. The collection is [[a,b]] and the backend names
    the imported screenshot [a]: the drop at position 1 shows its success
    message, raises nothing and leaves the collection [[a,a,b]]. *)
Lemma insertAt_duplicate_counterexample :
  1 ≤ length (sortedScreenshots (store_of ["a"; "b"] ∅))
  ∧ [shot "a"] ≠ []
  ∧ filename (shot "a") ∈ filenames (sortedScreenshots (store_of ["a"; "b"] ∅))
  ∧ handleDrop (pending_drop 1 "a") (store_of ["a"; "b"] ∅)
    = (insertAt 1 [shot "a"] (store_of ["a"; "b"] ∅),
       [UploadMessageInserted "a"; NewlyAdded "a"])
  ∧ filenames (sortedScreenshots (insertAt 1 [shot "a"] (store_of ["a"; "b"] ∅)))
    = ["a"; "a"; "b"]
  ∧ sortedScreenshots (insertAt 1 [shot "a"] (store_of ["a"; "b"] ∅))
    ≠ sortedScreenshots (store_of ["a"; "b"] ∅).
Proof.
  split_and!.
  - simpl. lia.
  - done.
  - simpl. set_solver.
  - reflexivity.
  - reflexivity.
  - by apply insertAt_never_noop.
Qed.

(** C2, amended. For every collection, every index up to its length and
    every non-empty item sequence, when an incoming filename already exists in
    the collection the drop insertion still splices the items in at the
    index: the collection grows by the items, is no longer free of duplicate
    filenames, and the dirty flag is set. Every drop that brings filenames
    performs this insertion, whatever the filenames are. *)
Theorem insertAt_accepts_duplicates (st : Store) (index : nat) (new : list Screenshot) :
  index ≤ length (sortedScreenshots st) →
  new ≠ [] →
  (∃ s, s ∈ new ∧ filename s ∈ filenames (sortedScreenshots st)) →
  let st' := insertAt index new st in
  sortedScreenshots st'
  = take index (sortedScreenshots st) ++ new ++ drop index (sortedScreenshots st)
  ∧ length (sortedScreenshots st') = length (sortedScreenshots st) + length new
  ∧ sortedScreenshots st' ≠ sortedScreenshots st
  ∧ ¬ NoDup (filenames (sortedScreenshots st'))
  ∧ hasChanges st' = true
  ∧ (∀ e, incoming e ≠ [] →
       (handleDrop e st).1
       = insertAt (default (renderedLength e) (dropTargetIndex e))
                  ((λ f, mkScreenshot f "") <$> incoming e) st).
Proof.
  intros Hindex Hnew (s & Hs & Hdup) st'. subst st'.
  split_and!.
  - apply insertAt_screenshots.
  - rewrite (Permutation_length (insertAt_perm index new st)), length_app. lia.
  - by apply insertAt_never_noop.
  - intros Hnodup. unfold filenames in Hnodup.
    rewrite (insertAt_perm index new st), fmap_app in Hnodup.
    apply NoDup_app in Hnodup as (_ & Hdisj & _).
    apply (Hdisj (filename s)); [|done].
    apply list_elem_of_fmap. eauto.
  - done.
  - intros e He. rewrite handleDrop_store. by destruct (incoming e).
Qed.

Lemma insertAt_accepts_duplicates_witness :
  1 ≤ length (sortedScreenshots (store_of ["a"; "b"] ∅))
  ∧ [shot "a"] ≠ []
  ∧ (∃ s, s ∈ [shot "a"] ∧ filename s ∈ filenames (sortedScreenshots (store_of ["a"; "b"] ∅)))
  ∧ ¬ NoDup (filenames (sortedScreenshots (insertAt 1 [shot "a"] (store_of ["a"; "b"] ∅)))).
Proof.
  assert (1 ≤ length (sortedScreenshots (store_of ["a"; "b"] ∅))) as H1 by (simpl; lia).
  assert ([shot "a"] ≠ []) as H2 by done.
  assert (∃ s, s ∈ [shot "a"]
               ∧ filename s ∈ filenames (sortedScreenshots (store_of ["a"; "b"] ∅))) as H3.
  { exists (shot "a"). split; [apply list_elem_of_here|]. simpl. apply list_elem_of_here. }
  split; [exact H1|]. split; [exact H2|]. split; [exact H3|].
  exact (proj1 (proj2 (proj2 (proj2 (insertAt_accepts_duplicates _ 1 [shot "a"] H1 H2 H3))))).
Defined.

(** ** Invariants of the store *)

Lemma reorder_effect (i j : Z) (st : Store) :
  sortedScreenshots (next (reorder i j st)) ≡ₚ sortedScreenshots st
  ∧ deletedBatches (next (reorder i j st)) = deletedBatches st
  ∧ selectedFiles (next (reorder i j st)) = selectedFiles st.
Proof.
  unfold reorder. repeat case_decide; simpl; split_and!; try done.
  apply move_item_perm.
Qed.

Lemma handleDragEnd_effect (active : string) (over : option string) (st : Store) :
  sortedScreenshots (next (handleDragEnd active over st)) ≡ₚ sortedScreenshots st
  ∧ deletedBatches (next (handleDragEnd active over st)) = deletedBatches st
  ∧ selectedFiles (next (handleDragEnd active over st)) = selectedFiles st.
Proof.
  unfold handleDragEnd. destruct over as [over_id|]; [|done].
  case_decide; [apply reorder_effect|done].
Qed.

Lemma handleCardClick_lists (e : MouseEvent) (index : nat) (f : string) (st : Store) :
  sortedScreenshots (handleCardClick e index f st) = sortedScreenshots st
  ∧ deletedBatches (handleCardClick e index f st) = deletedBatches st.
Proof.
  unfold handleCardClick, toggleSelect.
  destruct (shiftKey e), (lastClickedIndex st), (ctrlKey e || metaKey e);
    simpl; repeat case_decide; done.
Qed.

Lemma handleCardClick_selection (e : MouseEvent) (index : nat) (s : Screenshot) (st : Store) :
  sortedScreenshots st !! index = Some s →
  selection_in_collection st →
  selection_in_collection (handleCardClick e index (filename s) st).
Proof.
  intros Hs Hsel g.
  destruct (handleCardClick_lists e index (filename s) st) as [-> _].
  assert (filename s ∈ filenames (sortedScreenshots st)) as Hin.
  { apply list_elem_of_fmap. exists s. split; [done|]. by eapply list_elem_of_lookup_2. }
  assert (∀ a b, g ∈ (list_to_set (filename <$> slice a b (sortedScreenshots st)) : gset string)
                 → g ∈ filenames (sortedScreenshots st)) as Hrange.
  { intros a b. rewrite elem_of_list_to_set, list_elem_of_fmap.
    intros (x & -> & Hx). apply elem_of_slice in Hx as (k & _ & Hk).
    apply list_elem_of_fmap. exists x. split; [done|]. by eapply list_elem_of_lookup_2. }
  specialize (Hsel g).
  unfold handleCardClick, toggleSelect.
  destruct (shiftKey e), (lastClickedIndex st), (ctrlKey e || metaKey e);
    simpl; repeat case_decide; simpl;
    rewrite ?elem_of_difference, ?elem_of_union, ?elem_of_singleton;
    first [apply Hrange | intuition (subst; auto)].
Qed.

Lemma deleted_filenames_snoc (log : list DeletedBatch) (b : DeletedBatch) :
  deleted_filenames (log ++ [b]) = deleted_filenames log ++ filenames (items b).
Proof. unfold deleted_filenames. by rewrite bind_app, bind_singleton. Qed.

Lemma deleteSelected_all_filenames (st : Store) :
  all_filenames (next (deleteSelected st)) ≡ₚ all_filenames st.
Proof.
  unfold deleteSelected. case_decide; [done|]. unfold all_filenames. simpl.
  rewrite deleted_filenames_snoc. simpl.
  rewrite (Permutation_app_comm (deleted_filenames _)), app_assoc.
  apply Permutation_app_tail. unfold filenames. rewrite <- fmap_app.
  apply fmap_Permutation.
  rewrite Permutation_app_comm. apply filter_app_complement.
Qed.

Lemma restoreBatch_all_filenames (ts : nat) (st : Store) :
  all_filenames (next (restoreBatch ts st)) ≡ₚ all_filenames st.
Proof.
  unfold restoreBatch.
  destruct (list_find _ _) as [[i batch]|] eqn:Hfind; [|done].
  apply list_find_Some in Hfind as (Hi & _ & _).
  unfold all_filenames, deleted_filenames. simpl.
  rewrite (bind_Permutation _ _ _ (delete_Permutation _ _ _ Hi)), bind_cons.
  unfold filenames. by rewrite fmap_app, <- app_assoc.
Qed.

Lemma restoreBatch_grows (ts : nat) (st : Store) (f : string) :
  f ∈ filenames (sortedScreenshots st) →
  f ∈ filenames (sortedScreenshots (next (restoreBatch ts st))).
Proof.
  unfold restoreBatch. destruct (list_find _ _) as [[i batch]|]; [|done].
  simpl. unfold filenames. rewrite fmap_app, elem_of_app. by left.
Qed.

Lemma filenames_of_names (names : list string) :
  filenames ((λ f, mkScreenshot f "") <$> names) = names.
Proof.
  unfold filenames. rewrite <- list_fmap_compose. induction names; [done|].
  simpl. by f_equal.
Qed.

Lemma handleDrop_effect (e : DropEvent) (st : Store) :
  filenames (sortedScreenshots (handleDrop e st).1)
    ≡ₚ incoming e ++ filenames (sortedScreenshots st)
  ∧ deletedBatches (handleDrop e st).1 = deletedBatches st
  ∧ selectedFiles (handleDrop e st).1 = selectedFiles st.
Proof.
  rewrite handleDrop_store. destruct (incoming e) as [|n names]; [done|].
  split; [|done].
  unfold filenames at 1. rewrite insertAt_perm, fmap_app.
  fold (filenames ((λ f, mkScreenshot f "") <$> n :: names)).
  by rewrite filenames_of_names.
Qed.

Lemma apply_op_selection (op : Op) (st : Store) :
  selection_in_collection st → selection_in_collection (apply_op op st).
Proof.
  intros Hsel. destruct op as [reply| |active over|e index| | | |ts|e|ok|ok|i]; simpl.
  - destruct reply; done.
  - done.
  - destruct (handleDragEnd_effect active over st) as (Hp & _ & Hs).
    intros f. rewrite Hs. unfold filenames. rewrite Hp. apply Hsel.
  - destruct (sortedScreenshots st !! index) as [s|] eqn:Hs; [|done].
    by apply handleCardClick_selection.
  - intros f. simpl. by rewrite elem_of_list_to_set.
  - intros f. simpl. set_solver.
  - unfold deleteSelected. case_decide; [done|]. intros f. simpl. set_solver.
  - intros f Hf. apply restoreBatch_grows, Hsel.
    unfold restoreBatch in Hf. by destruct (list_find _ _) as [[i batch]|].
  - destruct (handleDrop_effect e st) as (Hp & _ & Hs).
    intros f. rewrite Hs, Hp. intros Hf%Hsel. apply elem_of_app. by right.
  - destruct ok; done.
  - destruct ok; done.
  - done.
Qed.

Lemma apply_op_all_filenames (op : Op) (st : Store) :
  well_formed_reply op → fresh_drop op st →
  NoDup (all_filenames st) → NoDup (all_filenames (apply_op op st)).
Proof.
  intros Hwf Hfresh Hnd. destruct op as [reply| |active over|e index| | | |ts|e|ok|ok|i]; simpl.
  - destruct reply as [| |l]; simpl; try done.
    unfold all_filenames. simpl. by rewrite app_nil_r.
  - unfold all_filenames. simpl. constructor.
  - destruct (handleDragEnd_effect active over st) as (Hp & Hb & _).
    unfold all_filenames, filenames. by rewrite Hp, Hb.
  - destruct (sortedScreenshots st !! index) as [s|]; [|done].
    destruct (handleCardClick_lists e index (filename s) st) as [Hc Hb].
    unfold all_filenames. by rewrite Hc, Hb.
  - done.
  - done.
  - by rewrite deleteSelected_all_filenames.
  - by rewrite restoreBatch_all_filenames.
  - destruct (handleDrop_effect e st) as (Hp & Hb & _).
    unfold all_filenames. rewrite Hp, Hb, <- app_assoc.
    destruct Hfresh as [Hnames Hnew].
    apply NoDup_app. split_and!; [done| |done].
    intros f Hf [?|?]%elem_of_app; by destruct (Hnew f Hf).
  - destruct ok; done.
  - destruct ok; done.
  - done.
Qed.

Lemma apply_ops_selection (ops : list Op) (st : Store) :
  selection_in_collection st → selection_in_collection (apply_ops ops st).
Proof.
  revert st. induction ops as [|op ops IH]; intros st Hsel; [done|].
  apply IH. by apply apply_op_selection.
Qed.

Lemma twice_not_NoDup (f : string) : ¬ NoDup [f; f].
Proof. intros [Hnotin _]%NoDup_cons. apply Hnotin, list_elem_of_here. Qed.

Lemma reachable_selection (st : Store) : reachable st → selection_in_collection st.
Proof.
  induction 1 as [|op st _ IH _]; [done|]. by apply apply_op_selection.
Qed.

Lemma reachable_fresh_reachable (st : Store) : reachable_fresh st → reachable st.
Proof. induction 1; by constructor. Qed.

Lemma reachable_fresh_all_filenames (st : Store) :
  reachable_fresh st → NoDup (all_filenames st).
Proof.
  induction 1 as [|op st _ IH Hwf Hfresh]; [constructor|].
  by apply apply_op_all_filenames.
Qed.

(** C7, as stated, fails. After the fetch of [[a]], the drop of a pending
    screenshot that the backend names [a] leads to the collection [[a,a]]. *)
Lemma drop_breaks_no_duplicates :
  reachable twice_a
  ∧ filenames (sortedScreenshots twice_a) = ["a"; "a"]
  ∧ ¬ store_invariant twice_a.
Proof.
  split_and!.
  - unfold twice_a. apply reachable_step; [apply reachable_step|].
    + apply reachable_init.
    + simpl. apply NoDup_singleton.
    + done.
  - reflexivity.
  - intros [Hnd _]. unfold no_duplicates in Hnd.
    change (filenames (sortedScreenshots twice_a)) with ["a"; "a"] in Hnd.
    apply NoDup_cons in Hnd as [Hnotin _]. apply Hnotin, list_elem_of_here.
Qed.

(** C7, amended. Every state the page reaches, by any sequence of its
    operations and whatever the backend replies, keeps the selection inside
    the collection's filenames, and every operation preserves that. Freedom
    from duplicate filenames is not preserved by every operation: a drop
    splices the names the backend returns without a check, a fetch installs
    the list the backend returns as it is ([[a,a]] included), and
    [restoreBatch] appends a batch whatever the collection holds (so a drop
    that brings back a deleted name breaks it at the restore). It holds in
    every state reached while every fetched list is duplicate-free and every
    drop brings filenames that are new (pairwise distinct, neither in the
    collection nor in the undo log). What every operation preserves under
    these two conditions is the stronger invariant that no filename occurs
    twice in the collection and the undo log taken together. *)
Theorem invariants_of_reachable_states :
  (∀ ops, selection_in_collection (apply_ops ops initial_store))
  ∧ (∀ st, reachable st → selection_in_collection st)
  ∧ (∀ op st, selection_in_collection st → selection_in_collection (apply_op op st))
  ∧ (∀ st, reachable_fresh st → store_invariant st ∧ NoDup (all_filenames st))
  ∧ (∀ op st, well_formed_reply op → fresh_drop op st →
              NoDup (all_filenames st) → NoDup (all_filenames (apply_op op st)))
  ∧ ¬ no_duplicates (apply_op (OpFetch (Screenshots [shot "a"; shot "a"])) initial_store)
  ∧ (reachable a_shown_and_deleted
     ∧ store_invariant a_shown_and_deleted
     ∧ ¬ no_duplicates (apply_op (OpRestoreBatch 1) a_shown_and_deleted)).
Proof.
  split_and!.
  - intros ops. apply apply_ops_selection. intros f Hf. by apply not_elem_of_empty in Hf.
  - apply reachable_selection.
  - intros op st. apply apply_op_selection.
  - intros st Hr. pose proof (reachable_fresh_all_filenames st Hr) as Hnd.
    split; [|done]. split.
    + unfold all_filenames in Hnd. by apply NoDup_app in Hnd as (? & _ & _).
    + by apply reachable_selection, reachable_fresh_reachable.
  - intros op st. apply apply_op_all_filenames.
  - apply twice_not_NoDup.
  - change a_shown_and_deleted
      with (apply_op (OpDrop (pending_drop 0 "a"))
              (apply_op OpDeleteSelected
                 (apply_op OpSelectAll
                    (apply_op (OpFetch (Screenshots [shot "a"])) initial_store)))).
    repeat (apply reachable_step; [|first [exact I|apply NoDup_singleton]]).
    apply reachable_init.
  - split.
    + change (filenames (sortedScreenshots a_shown_and_deleted)) with ["a"].
      apply NoDup_singleton.
    + apply (apply_ops_selection _ initial_store).
      intros f Hf. by apply not_elem_of_empty in Hf.
  - apply twice_not_NoDup.
Qed.

Lemma invariants_of_reachable_states_witness :
  reachable_fresh (apply_op (OpDrop (pending_drop 1 "b"))
                     (apply_op (OpFetch (Screenshots [shot "a"])) initial_store))
  ∧ store_invariant (apply_op (OpDrop (pending_drop 1 "b"))
                       (apply_op (OpFetch (Screenshots [shot "a"])) initial_store)).
Proof.
  assert (reachable_fresh (apply_op (OpDrop (pending_drop 1 "b"))
            (apply_op (OpFetch (Screenshots [shot "a"])) initial_store))) as Hr.
  { apply reachable_fresh_step; [apply reachable_fresh_step| |].
    - apply reachable_fresh_init.
    - simpl. apply NoDup_singleton.
    - exact I.
    - exact I.
    - split; [apply NoDup_singleton|].
      intros f Hf. apply list_elem_of_singleton in Hf as ->.
      split; [|apply not_elem_of_nil].
      intros Hin. apply list_elem_of_singleton in Hin. discriminate Hin. }
  split; [exact Hr|].
  exact (proj1 (proj1 (proj2 (proj2 (proj2 invariants_of_reachable_states))) _ Hr)).
Defined.

(** ** Loading and saving *)




(** ** Deleting from the keyboard and from the buttons *)

Lemma elem_of_when (x : Effect) (b : bool) (l : list Effect) :
  x ∈ when b l ↔ b = true ∧ x ∈ l.
Proof.
  destruct b; simpl; [tauto|]. split; [by intros ?%not_elem_of_nil|by intros [? _]].
Qed.

Lemma delete_call_confirm_then_delete (p q : string) (count : nat) (confirm : nat → bool) :
  Call (DeleteSelected q) ∈ confirm_then_delete p count confirm ↔
  q = p ∧ (count ≤ 10 ∨ confirm count = true).
Proof.
  unfold confirm_then_delete.
  destruct (Nat.leb_spec count 10) as [Hle|Hgt].
  - rewrite list_elem_of_singleton. split; [intros [= ->]; auto|intros [-> _]; done].
  - rewrite elem_of_cons. destruct (confirm count).
    + rewrite list_elem_of_singleton.
      split; [intros [[=]|[= ->]]; auto|intros [-> _]; auto].
    + split; [intros [[=]|[]%not_elem_of_nil]|intros [_ [?|[=]]]; lia].
Qed.

Lemma confirm_confirm_then_delete (p : string) (n count : nat) (confirm : nat → bool) :
  Confirm n ∈ confirm_then_delete p count confirm ↔ n = count ∧ 10 < count.
Proof.
  unfold confirm_then_delete.
  destruct (Nat.leb_spec count 10) as [Hle|Hgt].
  - rewrite list_elem_of_singleton. split; [intros [=]|intros [_ ?]; lia].
  - rewrite elem_of_cons. split.
    + intros [[= ->]|Hin]; [done|].
      destruct (confirm count); [|by apply not_elem_of_nil in Hin].
      by apply list_elem_of_singleton in Hin.
    + intros [-> _]. by left.
Qed.

Lemma handleKeyDown_split (project : string) (selected : gset string) (preview : option nat)
    (confirm : nat → bool) (e : KeyboardEvent) :
  ∃ pre post,
    handleKeyDown project selected preview confirm e
    = pre ++ when (delete_key selected e)
                  (confirm_then_delete project (size selected) confirm) ++ post
    ∧ (∀ q, (Call (DeleteSelected q) ∉ pre) ∧ (Call (DeleteSelected q) ∉ post))
    ∧ (∀ n, (Confirm n ∉ pre) ∧ (Confirm n ∉ post)).
Proof.
  unfold handleKeyDown.
  exists (when (key_ctrlKey e && String.eqb (key e) "a") [PreventDefault; Call SelectAllAction]
          ++ when (key_ctrlKey e && (String.eqb (key e) "=" || String.eqb (key e) "+"))
                  [PreventDefault; Call ZoomIn]
          ++ when (key_ctrlKey e && String.eqb (key e) "-") [PreventDefault; Call ZoomOut]
          ++ when (key_ctrlKey e && String.eqb (key e) "0") [PreventDefault; Call ResetZoom]),
         (when (String.eqb (key e) "Escape") [Call DeselectAllAction; Call (SetPreviewIndex None)]
          ++ when (String.eqb (key e) "ArrowLeft" && bool_decide (preview ≠ None)) [Call PrevPreview]
          ++ when (String.eqb (key e) "ArrowRight" && bool_decide (preview ≠ None))
                  [Call NextPreview]).
  split; [by rewrite <- !app_assoc|].
  split; intros x; rewrite !elem_of_app, !elem_of_when; split;
    intros H; repeat destruct H as [H|H]; destruct H as [_ H];
    repeat (apply elem_of_cons in H as [H|H]; [discriminate H|]);
    by apply not_elem_of_nil in H.
Qed.

Lemma delete_key_true (selected : gset string) (e : KeyboardEvent) :
  delete_key selected e = true ↔ key e = "Delete" ∧ selected ≠ ∅.
Proof.
  unfold delete_key. rewrite andb_true_iff, String.eqb_eq, Nat.ltb_lt.
  assert (0 < size selected ↔ selected ≠ ∅) as ->; [|done].
  rewrite <- (leibniz_equiv_iff selected ∅), <- (size_empty_iff selected). lia.
Qed.

Lemma elem_of_handleKeyDown_delete (project : string) (selected : gset string)
    (preview : option nat) (confirm : nat → bool) (e : KeyboardEvent) (q : string) :
  Call (DeleteSelected q) ∈ handleKeyDown project selected preview confirm e ↔
  delete_key selected e = true
  ∧ q = project ∧ (size selected ≤ 10 ∨ confirm (size selected) = true).
Proof.
  destruct (handleKeyDown_split project selected preview confirm e)
    as (pre & post & -> & Hcall & _).
  destruct (Hcall q) as [Hpre Hpost].
  rewrite !elem_of_app, elem_of_when, delete_call_confirm_then_delete. tauto.
Qed.

Lemma elem_of_handleKeyDown_confirm (project : string) (selected : gset string)
    (preview : option nat) (confirm : nat → bool) (e : KeyboardEvent) (n : nat) :
  Confirm n ∈ handleKeyDown project selected preview confirm e ↔
  delete_key selected e = true ∧ n = size selected ∧ 10 < size selected.
Proof.
  destruct (handleKeyDown_split project selected preview confirm e)
    as (pre & post & -> & _ & Hconfirm).
  destruct (Hconfirm n) as [Hpre Hpost].
  rewrite !elem_of_app, elem_of_when, confirm_confirm_then_delete. tauto.
Qed.

Lemma elem_of_handleDeleteSelected_delete (project : option string) (selected : gset string)
    (confirm : nat → bool) (q : string) :
  Call (DeleteSelected q) ∈ handleDeleteSelected project selected confirm ↔
  truthy_opt project = Some q ∧ (size selected ≤ 10 ∨ confirm (size selected) = true).
Proof.
  unfold handleDeleteSelected. destruct (truthy_opt project) as [p|].
  - rewrite delete_call_confirm_then_delete.
    split; [intros [-> ?]; auto|intros [[= ->] ?]; auto].
  - split; [by intros ?%not_elem_of_nil|by intros [? _]].
Qed.

(** C10. The delete-key handler calls [deleteSelected] only with a non-empty
    selection, on the selected project and on the [Delete] key. In the
    delete-key handler and in the delete-button handler alike, a call with
    more than 10 selected files comes right after a confirmation prompt for
    that count which the user answered with yes, and is not made when the
    answer is no; with at most 10 selected files no prompt is shown and the
    call is made (by the key handler when the key is [Delete] and something
    is selected, by the button handler when a project is selected). *)
Theorem delete_handlers_guarded
    (project : string) (button_project : option string) (selected : gset string)
    (preview : option nat) (confirm : nat → bool) (e : KeyboardEvent) (q : string) :
  let count := size selected in
  let keys := handleKeyDown project selected preview confirm e in
  let button := handleDeleteSelected button_project selected confirm in
  (Call (DeleteSelected q) ∈ keys →
     selected ≠ ∅ ∧ 0 < count ∧ q = project ∧ key e = "Delete")
  ∧ (Call (DeleteSelected q) ∈ keys → 10 < count →
       confirm count = true
       ∧ ∃ pre post, keys = pre ++ Confirm count :: Call (DeleteSelected q) :: post)
  ∧ (Call (DeleteSelected q) ∈ button → 10 < count →
       confirm count = true ∧ button = [Confirm count; Call (DeleteSelected q)])
  ∧ (count ≤ 10 → ∀ n, (Confirm n ∉ keys) ∧ (Confirm n ∉ button))
  ∧ (count ≤ 10 → key e = "Delete" → selected ≠ ∅ → Call (DeleteSelected project) ∈ keys)
  ∧ (count ≤ 10 → truthy_opt button_project = Some q → button = [Call (DeleteSelected q)])
  ∧ (10 < count → confirm count = false →
       ∀ p, (Call (DeleteSelected p) ∉ keys) ∧ (Call (DeleteSelected p) ∉ button)).
Proof.
  intros count keys button. subst count keys button.
  split_and!.
  - intros (Hkey & -> & _)%elem_of_handleKeyDown_delete.
    apply delete_key_true in Hkey as [Hkey Hne]. split_and!; try done.
    destruct (decide (size selected = 0)) as [H0|H0]; [|lia].
    apply size_empty_iff, leibniz_equiv_iff in H0. done.
  - intros (Hkey & -> & Hok)%elem_of_handleKeyDown_delete Hgt.
    destruct Hok as [Hle|Hyes]; [lia|].
    split; [done|].
    destruct (handleKeyDown_split project selected preview confirm e)
      as (pre & post & -> & _).
    exists pre, post. rewrite Hkey. unfold confirm_then_delete.
    rewrite Hyes.
    destruct (Nat.leb_spec (size selected) 10) as [Hle|_]; [lia|]. done.
  - intros (Hp & Hok)%elem_of_handleDeleteSelected_delete Hgt.
    destruct Hok as [Hle|Hyes]; [lia|].
    split; [done|].
    unfold handleDeleteSelected, confirm_then_delete. rewrite Hp.
    rewrite Hyes.
    destruct (Nat.leb_spec (size selected) 10) as [Hle|_]; [lia|]. done.
  - intros Hle n. split.
    + intros (_ & _ & Hgt)%elem_of_handleKeyDown_confirm. lia.
    + unfold handleDeleteSelected. destruct (truthy_opt button_project).
      * intros [_ Hgt]%confirm_confirm_then_delete. lia.
      * apply not_elem_of_nil.
  - intros Hle Hkey Hne. apply elem_of_handleKeyDown_delete.
    split_and!; [by apply delete_key_true|done|by left].
  - intros Hle Hp. unfold handleDeleteSelected, confirm_then_delete. rewrite Hp.
    destruct (Nat.leb_spec (size selected) 10) as [_|Hgt]; [done|lia].
  - intros Hgt Hno p. split.
    + intros (_ & _ & [Hle|Hyes])%elem_of_handleKeyDown_delete;
        [lia|congruence].
    + intros (_ & [Hle|Hyes])%elem_of_handleDeleteSelected_delete;
        [lia|congruence].
Qed.

Lemma delete_handlers_guarded_witness :
  Call (DeleteSelected "demo")
    ∈ handleKeyDown "demo" {["a"]} None (λ _, false) (mkKey false "Delete")
  ∧ ({["a"]} : gset string) ≠ ∅.
Proof.
  assert (Call (DeleteSelected "demo")
            ∈ handleKeyDown "demo" {["a"]} None (λ _, false) (mkKey false "Delete")) as Hin.
  { vm_compute. apply list_elem_of_here. }
  split; [exact Hin|].
  exact (proj1 (proj1 (delete_handlers_guarded "demo" None {["a"]} None (λ _, false)
                         (mkKey false "Delete") "demo") Hin)).
Defined.

(** ** Saving while a save is in flight *)

Lemma StronglySorted_snoc (l : list nat) (n : nat) :
  StronglySorted lt l → Forall (λ x, x < n) l → StronglySorted lt (l ++ [n]).
Proof.
  induction 1 as [|x l Hl IH Hx]; intros Hn; simpl.
  - repeat constructor.
  - apply Forall_cons in Hn as [Hxn Hn]. constructor; [by apply IH|].
    apply Forall_app. split; [done|]. by constructor.
Qed.

Lemma keep_others_only (r : Request) : filter (λ x, x ≠ r) [r] = [].
Proof. rewrite filter_cons, decide_False by auto. done. Qed.

Lemma stored_release (s : System) : stored (release s) = stored s.
Proof. unfold release. by destruct (blocked s). Qed.

Lemma arrive_none_in_flight (r : Request) (ok : bool) (s : System) :
  in_flight s = [] → arrive r ok s = None.
Proof.
  intros Hfl. unfold arrive. rewrite Hfl, decide_False; [done|apply not_elem_of_nil].
Qed.

Lemma arrive_one_in_flight (r r' : Request) (ok : bool) (s s' : System) :
  in_flight s = [r] → arrive r' ok s = Some s' →
  r' = r
  ∧ s' = release (mkSystem (collection s) (saves s) [] (blocked s)
                           (if ok then r else stored s)).
Proof.
  intros Hfl. unfold arrive. rewrite Hfl. case_decide as Hin; [|done].
  apply list_elem_of_singleton in Hin as ->. rewrite keep_others_only.
  by intros [= <-].
Qed.

Lemma in_flight_at_most_one (s : System) :
  length (in_flight s) ≤ 1 → in_flight s = [] ∨ ∃ r, in_flight s = [r].
Proof.
  destruct (in_flight s) as [|r [|r' fl]]; simpl; intros Hlen; [by left|eauto|lia].
Qed.

Lemma init_invariant (l : list string) : serial_invariant (init l).
Proof.
  unfold serial_invariant, outstanding. simpl. split_and!; try done; try lia.
  - constructor.
  - by intros r ?%not_elem_of_nil.
Qed.

Lemma save_invariant (d : Discipline) (s : System) :
  serialized d → serial_invariant s → serial_invariant (save d s).
Proof.
  intros Hd (Hlen & Hidle & Hsorted & Hbounds & Hstored).
  unfold outstanding in *.
  destruct (in_flight_at_most_one s Hlen) as [Hfl|[r0 Hfl]].
  - assert (save d s = mkSystem (collection s) (S (saves s))
              [mkRequest (S (saves s)) (collection s)] (blocked s) (stored s)) as ->.
    { unfold save. rewrite Hfl. by destruct d. }
    rewrite (Hidle Hfl). unfold serial_invariant, outstanding. simpl.
    split_and!; try done; try lia.
    + repeat constructor.
    + intros r ->%list_elem_of_singleton. simpl. lia.
  - rewrite Hfl in Hsorted, Hbounds.
    assert (Forall (λ x, x < S (saves s)) (rank <$> [r0] ++ blocked s)) as Hold.
    { apply Forall_fmap, Forall_forall. intros r Hr. simpl.
      destruct (Hbounds r Hr). lia. }
    destruct d; [| |by destruct Hd].
    + assert (save Queued s = mkSystem (collection s) (S (saves s)) [r0]
                (blocked s ++ [mkRequest (S (saves s)) (collection s)]) (stored s)) as ->.
      { unfold save. by rewrite Hfl. }
      unfold serial_invariant, outstanding. simpl. split_and!; try done; try lia.
      * rewrite fmap_app.
        by apply (StronglySorted_snoc (rank r0 :: (rank <$> blocked s)) (S (saves s))).
      * intros r [->|[Hr| ->%list_elem_of_singleton]%elem_of_app]%elem_of_cons; simpl.
        -- destruct (Hbounds r0); [apply list_elem_of_here|lia].
        -- destruct (Hbounds r); [by apply list_elem_of_further|lia].
        -- lia.
    + assert (save Coalesced s = mkSystem (collection s) (S (saves s)) [r0]
                [mkRequest (S (saves s)) (collection s)] (stored s)) as ->.
      { unfold save. by rewrite Hfl. }
      unfold serial_invariant, outstanding. simpl. split_and!; try done; try lia.
      * simpl in Hold. apply Forall_cons in Hold as [Hr0 _].
        apply SSorted_cons; [apply SSorted_cons; constructor|].
        apply Forall_cons. split; [exact Hr0|constructor].
      * intros r [->| ->%list_elem_of_singleton]%elem_of_cons; simpl; [|lia].
        destruct (Hbounds r0); [apply list_elem_of_here|lia].
Qed.

Lemma arrive_invariant (r : Request) (ok : bool) (s s' : System) :
  serial_invariant s → arrive r ok s = Some s' →
  serial_invariant s' ∧ rank (stored s) < rank r.
Proof.
  intros (Hlen & Hidle & Hsorted & Hbounds & Hstored) Harrive.
  unfold outstanding in *.
  destruct (in_flight_at_most_one s Hlen) as [Hfl|[r0 Hfl]].
  { by rewrite (arrive_none_in_flight r ok s Hfl) in Harrive. }
  destruct (arrive_one_in_flight r0 r ok s s' Hfl Harrive) as [-> ->].
  rewrite Hfl in Hsorted, Hbounds. simpl in Hsorted.
  apply StronglySorted_inv in Hsorted as [Hrest Hr0].
  destruct (Hbounds r0) as [Hnew Hcalls]; [apply list_elem_of_here|].
  split; [|done].
  assert (∀ x, x ∈ blocked s →
               rank (if ok then r0 else stored s) < rank x ≤ saves s) as Hblocked.
  { intros x Hx. destruct (Hbounds x) as [Hlow Hhigh]; [by apply list_elem_of_further|].
    split; [|done]. destruct ok; [|done].
    rewrite Forall_fmap, Forall_forall in Hr0. by apply Hr0. }
  unfold release, serial_invariant, outstanding. simpl.
  destruct (blocked s) as [|r1 rest] eqn:Hb; simpl.
  - split_and!; try done; [lia|destruct ok; lia].
  - split_and!; try done; try (destruct ok; lia).
Qed.

Lemma step_invariant (d : Discipline) (e : Event) (s s' : System) :
  serialized d → serial_invariant s → step d e s = Some s' →
  serial_invariant s' ∧ rank (stored s) ≤ rank (stored s').
Proof.
  intros Hd Hinv Hstep. destruct e as [l| |r ok]; simpl in Hstep.
  - injection Hstep as <-. split; [|done]. exact Hinv.
  - injection Hstep as <-. split; [by apply save_invariant|].
    unfold save. destruct d, (in_flight s); simpl; lia.
  - destruct (arrive_invariant r ok s s' Hinv Hstep) as [Hinv' Hnew].
    split; [done|].
    unfold arrive in Hstep. case_decide; [|done]. injection Hstep as <-.
    rewrite stored_release. simpl. destruct ok; lia.
Qed.

Lemma run_invariant (d : Discipline) (es : list Event) (s s' : System) :
  serialized d → serial_invariant s → run d es s = Some s' →
  serial_invariant s' ∧ rank (stored s) ≤ rank (stored s').
Proof.
  intros Hd. revert s. induction es as [|e es IH]; intros s Hinv Hrun; simpl in Hrun.
  - injection Hrun as <-. split; [done|lia].
  - destruct (step d e s) as [s1|] eqn:Hstep; [|done].
    destruct (step_invariant d e s s1 Hd Hinv Hstep) as [Hinv1 Hle1].
    destruct (IH s1 Hinv1 Hrun) as [Hinv' Hle']. split; [done|lia].
Qed.

Lemma run_app (d : Discipline) (es1 es2 : list Event) (s : System) :
  run d (es1 ++ es2) s = run d es1 s ≫= run d es2.
Proof.
  revert s. induction es1 as [|e es1 IH]; intros s; simpl; [done|].
  destruct (step d e s); [apply IH|done].
Qed.

Lemma two_saves_state (d : Discipline) :
  serialized d →
  ∃ s0, run d two_saves (init []) = Some s0 ∧ scenario_state false s0.
Proof.
  intros Hd. destruct d; [| |by destruct Hd]; eexists; (split; [reflexivity|]);
    left; done.
Qed.

Lemma scenario_arrival (anything_goes : bool) (r : Request) (ok : bool) (s s' : System) :
  scenario_state anything_goes s →
  (anything_goes = false → ok = true) →
  arrive r ok s = Some s' →
  scenario_state anything_goes s'.
Proof.
  intros [(Hfl & Hb & Hst)|[(Hfl & Hb & Hst)|(Hfl & _)]] Hok Harrive.
  - destruct (arrive_one_in_flight _ _ _ _ _ Hfl Harrive) as [-> ->].
    unfold release. simpl. rewrite Hb. right; left. simpl. split_and!; [done|done|].
    destruct ok; [by left|right]. destruct anything_goes; [done|].
    by specialize (Hok eq_refl).
  - destruct (arrive_one_in_flight _ _ _ _ _ Hfl Harrive) as [-> ->].
    unfold release. simpl. rewrite Hb. right; right. simpl. split_and!; [done|done|].
    destruct ok; [by left|right]. destruct anything_goes; [|by specialize (Hok eq_refl)].
    split; [done|]. destruct Hst as [?|[_ ?]]; auto.
  - by rewrite (arrive_none_in_flight r ok s Hfl) in Harrive.
Qed.

Lemma scenario_run (d : Discipline) (anything_goes : bool) (es : list Event) (s s' : System) :
  scenario_state anything_goes s →
  Forall is_arrival es →
  (anything_goes = false → Forall is_success es) →
  run d es s = Some s' →
  scenario_state anything_goes s'.
Proof.
  revert s. induction es as [|e es IH]; intros s Hs Harr Hsucc Hrun; simpl in Hrun.
  - by injection Hrun as <-.
  - apply Forall_cons in Harr as [He Harr].
    destruct e as [l| |r ok]; [done|done|]. simpl in Hrun.
    destruct (arrive r ok s) as [s1|] eqn:Harrive; [|done].
    apply (IH s1); [|done| |done].
    + apply (scenario_arrival anything_goes r ok s); [done| |done].
      intros Hg. specialize (Hsucc Hg). apply Forall_cons in Hsucc as [Hok _].
      by destruct ok.
    + intros Hg. specialize (Hsucc Hg). by apply Forall_cons in Hsucc as [_ ?].
Qed.

Lemma scenario_state_weaken (s : System) : scenario_state false s → scenario_state true s.
Proof.
  intros [H|[(?&?&[?|[[=] _]])|(?&?&[?|[[=] _]])]];
    [by left|right; left; auto|right; right; auto].
Qed.

Lemma scenario_state_order (s : System) :
  scenario_state true s →
  stored s = loaded_order ∨ stored s = first_save ∨ stored s = second_save.
Proof.
  intros [(_&_&?)|[(_&_&[?|[_ ?]])|(_&_&[?|[_ [?|?]]])]]; auto.
Qed.

(** The discipline the spec rules out does let a stale order through: with
    both saves sent at once, the second may be written first and the first
    then overwrites it. *)
Lemma interleaved_saves_go_back :
  ∃ s1 s2,
    run Interleaved (two_saves ++ [Arrive second_save true]) (init []) = Some s1
    ∧ order (stored s1) = ["a"; "b"; "c"]
    ∧ run Interleaved [Arrive first_save true] s1 = Some s2
    ∧ order (stored s2) = ["a"; "b"].
Proof. do 2 eexists. split_and!; reflexivity. Qed.

(** C9. When saves are serialized (queued or coalesced), in every state the
    store, the network and the backend can reach, at most one save is in
    flight; whatever request reaches the backend is newer than the order the
    backend holds; so along every continuation the rank of the stored order
    never decreases. In the scenario (save on [[a,b]], then save on
    [[a,b,c]] while the first is in flight), however the two requests are
    resolved the backend holds the loaded order, [[a,b]] or [[a,b,c]]; once
    it holds [[a,b,c]] it keeps it; and when both requests have succeeded it
    holds [[a,b,c]]. *)
Theorem serialized_saves_never_go_back
    (d : Discipline) (l0 : list string) (es : list Event) (s : System) :
  serialized d →
  run d es (init l0) = Some s →
  length (in_flight s) ≤ 1
  ∧ (∀ r ok s', step d (Arrive r ok) s = Some s' → rank (stored s) < rank r)
  ∧ (∀ es' s', run d es' s = Some s' → rank (stored s) ≤ rank (stored s'))
  ∧ (∀ es1 s1,
       Forall is_arrival es1 →
       run d (two_saves ++ es1) (init []) = Some s1 →
       (order (stored s1) = [] ∨ order (stored s1) = ["a"; "b"]
        ∨ order (stored s1) = ["a"; "b"; "c"])
       ∧ (order (stored s1) = ["a"; "b"; "c"] →
          ∀ es2 s2, Forall is_arrival es2 → run d es2 s1 = Some s2 →
                    order (stored s2) = ["a"; "b"; "c"])
       ∧ (Forall is_success es1 → in_flight s1 = [] →
          order (stored s1) = ["a"; "b"; "c"])).
Proof.
  intros Hd Hrun.
  destruct (run_invariant d es (init l0) s Hd (init_invariant l0) Hrun) as [Hinv _].
  split_and!.
  - by destruct Hinv.
  - intros r ok s' Hstep. by destruct (arrive_invariant r ok s s' Hinv Hstep).
  - intros es' s' Hrun'. by destruct (run_invariant d es' s s' Hd Hinv Hrun').
  - intros es1 s1 Harr Hrun1. rewrite run_app in Hrun1.
    destruct (two_saves_state d Hd) as (s0 & Hs0 & Hphase).
    rewrite Hs0 in Hrun1. simpl in Hrun1.
    assert (scenario_state true s1) as Hany.
    { apply (scenario_run d true es1 s0); [by apply scenario_state_weaken|done|done|done]. }
    split_and!.
    + destruct (scenario_state_order s1 Hany) as [->|[->| ->]]; auto.
    + intros Habc es2 s2 Harr2 Hrun2.
      assert (stored s1 = second_save) as Hsecond.
      { destruct (scenario_state_order s1 Hany) as [E|[E|E]]; rewrite E in Habc;
          [discriminate Habc|discriminate Habc|done]. }
      assert (serial_invariant s1) as Hinv1.
      { assert (run d (two_saves ++ es1) (init []) = Some s1) as Hfull
          by (rewrite run_app, Hs0; done).
        by destruct (run_invariant d _ (init []) s1 Hd (init_invariant []) Hfull). }
      destruct (run_invariant d es2 s1 s2 Hd Hinv1 Hrun2) as [_ Hle].
      rewrite Hsecond in Hle. simpl in Hle.
      assert (scenario_state true s2) as Hany2
        by (apply (scenario_run d true es2 s1); done).
      destruct (scenario_state_order s2 Hany2) as [E|[E|E]]; rewrite E in Hle |- *;
        simpl in Hle; [lia|lia|done].
    + intros Hsucc Hidle.
      assert (scenario_state false s1) as Hgood.
      { apply (scenario_run d false es1 s0); done. }
      destruct Hgood as [(Hfl&_)|[(Hfl&_)|(_&_&[->|[[=] _]])]];
        [by rewrite Hfl in Hidle|by rewrite Hfl in Hidle|done].
Qed.

Lemma serialized_saves_never_go_back_witness :
  serialized Queued
  ∧ run Queued (two_saves ++ [Arrive first_save true]) (init [])
    = Some (mkSystem ["a"; "b"; "c"] 2 [second_save] [] first_save)
  ∧ length (in_flight (mkSystem ["a"; "b"; "c"] 2 [second_save] [] first_save)) ≤ 1.
Proof.
  assert (serialized Queued) as Hd by discriminate.
  assert (run Queued (two_saves ++ [Arrive first_save true]) (init [])
          = Some (mkSystem ["a"; "b"; "c"] 2 [second_save] [] first_save)) as Hrun
    by reflexivity.
  split; [exact Hd|]. split; [exact Hrun|].
  exact (proj1 (serialized_saves_never_go_back Queued [] _ _ Hd Hrun)).
Defined.

(** * More of the page *)

(** ** Dragging over the grid *)

Lemma scan_cards_bounds (i t : nat) (cards : list CardHit) :
  scan_cards i cards = Some t → i ≤ t ≤ i + length cards.
Proof.
  revert i. induction cards as [|card rest IH]; intros i; simpl; [done|].
  destruct (in_row card).
  - destruct (left_of_center card); [intros [= <-]; lia|].
    destruct (bool_decide (rest = []) || left_of_right card); [intros [= <-]; lia|].
    intros Hscan%IH. lia.
  - intros Hscan%IH. lia.
Qed.

Lemma scan_cards_none (i : nat) (cards : list CardHit) :
  Forall (λ card, in_row card = false) cards → scan_cards i cards = None.
Proof.
  revert i. induction cards as [|card rest IH]; intros i Hall; simpl; [done|].
  apply Forall_cons in Hall as [-> Hrest]. by apply IH.
Qed.

Lemma scan_cards_skip (i : nat) (before rest : list CardHit) :
  Forall passed_over before → rest ≠ [] →
  scan_cards i (before ++ rest) = scan_cards (i + length before) rest.
Proof.
  revert i. induction before as [|card before IH]; intros i Hall Hrest; simpl.
  - by rewrite Nat.add_0_r.
  - apply Forall_cons in Hall as [Hcard Hall].
    assert (bool_decide (before ++ rest = []) = false) as Hnot_last.
    { apply bool_decide_eq_false. by destruct before, rest. }
    rewrite Hnot_last. simpl.
    replace (i + S (length before)) with ((i + 1) + length before) by lia.
    destruct Hcard as [->|[-> ->]]; [by apply IH|].
    destruct (in_row card); by apply IH.
Qed.

(** X1. The index [handleDragOver] computes is a valid insertion position:
    it never exceeds the larger of the collection's length and the number of
    cards, so it is at most the collection's length when the grid shows one
    card per screenshot; when the pointer is in no card's row it is the end
    of the collection. *)
Theorem drop_target_in_bounds (renderedLength : nat) (cards : list CardHit) :
  drop_target renderedLength cards ≤ Nat.max renderedLength (length cards)
  ∧ (length cards = renderedLength → drop_target renderedLength cards ≤ renderedLength)
  ∧ (Forall (λ card, in_row card = false) cards →
     drop_target renderedLength cards = renderedLength).
Proof.
  unfold drop_target. split_and!.
  - destruct (scan_cards 0 cards) as [t|] eqn:Hscan; simpl; [|lia].
    apply scan_cards_bounds in Hscan. lia.
  - intros Hlen. destruct (scan_cards 0 cards) as [t|] eqn:Hscan; simpl; [|lia].
    apply scan_cards_bounds in Hscan. lia.
  - intros Hall. by rewrite scan_cards_none.
Qed.

Lemma drop_target_in_bounds_witness :
  length [mkHit true false true; mkHit false false false] = 2
  ∧ drop_target 2 [mkHit true false true; mkHit false false false] ≤ 2.
Proof.
  assert (length [mkHit true false true; mkHit false false false] = 2) as Hlen
    by reflexivity.
  split; [exact Hlen|].
  exact (proj1 (proj2 (drop_target_in_bounds 2 _)) Hlen).
Defined.

(** X2. The first card that decides gives the index. After cards the loop
    passes over (not in the pointer's row, or in it and left of the pointer
    altogether), a card in the pointer's row whose centre is right of the
    pointer gives its own position (insert before it); one whose centre is
    left of the pointer gives the position after it, when the pointer is
    left of its right edge or it is the last card. *)
Theorem drop_target_first_deciding_card
    (renderedLength : nat) (before after : list CardHit) (card : CardHit) :
  Forall passed_over before →
  in_row card = true →
  (left_of_center card = true →
   drop_target renderedLength (before ++ card :: after) = length before)
  ∧ (left_of_center card = false → after = [] ∨ left_of_right card = true →
     drop_target renderedLength (before ++ card :: after) = length before + 1).
Proof.
  intros Hbefore Hrow. unfold drop_target.
  rewrite (scan_cards_skip 0 before (card :: after) Hbefore) by done.
  simpl. rewrite Hrow. split.
  - by intros ->.
  - intros -> Hdecides.
    assert (bool_decide (after = []) || left_of_right card = true) as ->; [|done].
    destruct Hdecides as [->| ->]; [done|apply orb_true_r].
Qed.

Lemma drop_target_first_deciding_card_witness :
  Forall passed_over [mkHit false false false]
  ∧ in_row (mkHit true true true) = true
  ∧ left_of_center (mkHit true true true) = true
  ∧ drop_target 5 ([mkHit false false false] ++ mkHit true true true :: []) = 1.
Proof.
  assert (Forall passed_over [mkHit false false false]) as Hb.
  { apply Forall_cons. split; [by left|apply Forall_nil_2]. }
  assert (in_row (mkHit true true true) = true) as Hr by reflexivity.
  assert (left_of_center (mkHit true true true) = true) as Hc by reflexivity.
  split; [exact Hb|]. split; [exact Hr|]. split; [exact Hc|].
  exact (proj1 (drop_target_first_deciding_card 5 _ [] _ Hb Hr) Hc).
Defined.

(** X3. A drag over the grid followed by the drop puts the new screenshots
    where the pointer was: when a project is selected, the drag carries files
    or a pending screenshot and the grid shows one card per screenshot, the
    drag state is set and holds an index within the collection, and the drop
    leaves the screenshots before that index in place, puts the incoming ones
    right there and the remaining ones after them. *)
Theorem drag_then_drop_inserts_at_pointer
    (project : option string) (e : DragOverEvent) (cards : list CardHit) (d : DragState)
    (pending : PendingData) (reply : ApiReply) (files : list (File * ApiReply))
    (st : Store) :
  truthy_opt project ≠ None →
  hasFiles e || hasPending e = true →
  gridCards e = Some cards →
  length cards = length (sortedScreenshots st) →
  let n := length (sortedScreenshots st) in
  let d' := handleDragOver project n e d in
  let ev := drop_after d' project n pending reply files in
  let new := (λ f, mkScreenshot f "") <$> incoming ev in
  ∃ t, dropTarget d' = Some t ∧ isDragOver d' = true ∧ t ≤ n
       ∧ sortedScreenshots (handleDrop ev st).1
         = take t (sortedScreenshots st) ++ new ++ drop t (sortedScreenshots st)
       ∧ (∀ k, k < t →
               sortedScreenshots (handleDrop ev st).1 !! k = sortedScreenshots st !! k)
       ∧ (∀ k, k < length new →
               sortedScreenshots (handleDrop ev st).1 !! (t + k) = new !! k).
Proof.
  intros Hproject Hcarries Hgrid Hlen n d' ev new.
  exists (drop_target n cards).
  assert (d' = mkDragState true (Some (drop_target n cards))) as Hd'.
  { subst d'. unfold handleDragOver.
    destruct (truthy_opt project); [|done]. by rewrite Hcarries, Hgrid. }
  assert (drop_target n cards ≤ n) as Hbound
    by (by apply drop_target_in_bounds).
  assert (sortedScreenshots (handleDrop ev st).1
          = take (drop_target n cards) (sortedScreenshots st) ++ new
            ++ drop (drop_target n cards) (sortedScreenshots st)) as Hresult.
  { rewrite handleDrop_store. subst new.
    destruct (incoming ev) as [|f names] eqn:Hin.
    - simpl. by rewrite take_drop.
    - rewrite insertAt_screenshots. subst ev. unfold drop_after. simpl.
      by rewrite Hd'. }
  assert (length (take (drop_target n cards) (sortedScreenshots st))
          = drop_target n cards) as Htake by (rewrite length_take; lia).
  rewrite Hd'. simpl. split_and!; try done.
  - intros k Hk. rewrite Hresult, lookup_app_l by lia. by apply lookup_take_lt.
  - intros k Hk. rewrite Hresult, lookup_app_r by lia.
    rewrite Htake. replace (drop_target n cards + k - drop_target n cards) with k by lia.
    by apply lookup_app_l.
Qed.

Lemma drag_then_drop_inserts_at_pointer_witness :
  truthy_opt (Some "demo") ≠ None
  ∧ hasFiles (mkDragOver true false (Some [mkHit true true true]))
    || hasPending (mkDragOver true false (Some [mkHit true true true])) = true
  ∧ gridCards (mkDragOver true false (Some [mkHit true true true]))
    = Some [mkHit true true true]
  ∧ length [mkHit true true true] = length (sortedScreenshots (store_of ["a"] ∅))
  ∧ ∃ t, dropTarget (handleDragOver (Some "demo") 1
                       (mkDragOver true false (Some [mkHit true true true]))
                       (mkDragState false None)) = Some t
         ∧ t ≤ 1.
Proof.
  assert (truthy_opt (Some "demo") ≠ None) as H1 by discriminate.
  assert (hasFiles (mkDragOver true false (Some [mkHit true true true]))
          || hasPending (mkDragOver true false (Some [mkHit true true true])) = true)
    as H2 by reflexivity.
  assert (gridCards (mkDragOver true false (Some [mkHit true true true]))
          = Some [mkHit true true true]) as H3 by reflexivity.
  assert (length [mkHit true true true] = length (sortedScreenshots (store_of ["a"] ∅)))
    as H4 by reflexivity.
  split; [exact H1|]. split; [exact H2|]. split; [exact H3|]. split; [exact H4|].
  destruct (drag_then_drop_inserts_at_pointer (Some "demo") _ _ (mkDragState false None)
              NoPending (Rejected "") [] (store_of ["a"] ∅) H1 H2 H3 H4)
    as (t & Ht & _ & Hle & _).
  exists t. split; [exact Ht|exact Hle].
Defined.

(** ** What a drop does and what it reports *)

Ltac drop_cases e :=
  unfold handleDrop, incoming;
  destruct (truthy_opt (selectedProject e)) as [?project|] eqn:Hproject;
  [ destruct (pendingData e) as [|?msg|?pf] eqn:Hpending;
    [ destruct (filter _ (droppedFiles e)) as [|?fr ?files] eqn:Hfiles;
      [ | destruct (upload_all (_ :: _)) as [?names ?log] eqn:Hupload; cbn [fst snd];
          destruct (last _) eqn:Hlast ]
    |
    | destruct (importReply e) as [?ok ?nf|?msg] eqn:Hreply;
      [ destruct (accepted _) eqn:Haccepted | ] ]
  | ];
  cbn [fst snd].

Lemma insertAt_sublist (index : nat) (new : list Screenshot) (st : Store) :
  sortedScreenshots st `sublist_of` sortedScreenshots (insertAt index new st).
Proof.
  rewrite insertAt_screenshots.
  rewrite <- (take_drop index (sortedScreenshots st)) at 1.
  apply sublist_app; [done|]. by apply sublist_inserts_l.
Qed.

(** X4. A drop never removes or reorders what the collection holds and never
    touches the selection, the undo log or the view state: the old
    collection is a sublist of the new one, which is longer by the number of
    filenames the drop brings; a drop that brings none leaves the store as it
    is, and one that brings some sets the dirty flag. *)
Theorem handleDrop_keeps_what_is_there (e : DropEvent) (st : Store) :
  sortedScreenshots st `sublist_of` sortedScreenshots (handleDrop e st).1
  ∧ length (sortedScreenshots (handleDrop e st).1)
    = length (sortedScreenshots st) + length (incoming e)
  ∧ selectedFiles (handleDrop e st).1 = selectedFiles st
  ∧ deletedBatches (handleDrop e st).1 = deletedBatches st
  ∧ previewIndex (handleDrop e st).1 = previewIndex st
  ∧ lastClickedIndex (handleDrop e st).1 = lastClickedIndex st
  ∧ (incoming e = [] → (handleDrop e st).1 = st)
  ∧ (incoming e ≠ [] → hasChanges (handleDrop e st).1 = true).
Proof.
  rewrite handleDrop_store. destruct (incoming e) as [|f names] eqn:Hin.
  - split_and!; try done; simpl; lia.
  - split_and!; try done.
    + apply insertAt_sublist.
    + rewrite (Permutation_length (insertAt_perm _ _ st)), length_app, length_fmap. lia.
Qed.

Lemma accepted_Some (r : ApiReply) (f : string) :
  accepted r = Some f ↔ r = Resolved true (Some f) ∧ f ≠ "".
Proof.
  destruct r as [[] [nf|]|msg]; simpl; try (split; [done|by intros [[=] _]]).
  unfold truthy. destruct (String.eqb_spec nf "") as [->|Hne]; simpl.
  - split; [done|]. by intros [[= <-] ?].
  - split; [by intros [= ->]|by intros [[= ->] _]].
Qed.

(** X5. An error toast means nothing was inserted: when the drop shows the
    no-project, the import-failed or the no-images toast, the store is left as
    it was and that toast is all the drop reports. Without a selected project
    that is what every drop does, whatever it carries. *)
Theorem handleDrop_error_toast_changes_nothing (e : DropEvent) (st : Store) (n : Notice) :
  (n ∈ (handleDrop e st).2 → is_error_toast n →
   (handleDrop e st).1 = st ∧ (handleDrop e st).2 = [n] ∧ incoming e = [])
  ∧ (truthy_opt (selectedProject e) = None → handleDrop e st = (st, [ToastNoProject])).
Proof.
  split.
  - intros Hin Htoast. revert Hin. drop_cases e;
      try (intros ->%list_elem_of_singleton; done);
      try (by intros ?%not_elem_of_nil);
      try (intros [->|[->|?%not_elem_of_nil]%elem_of_cons]%elem_of_cons; done).
    + intros [Hlog|[->|[->|?%not_elem_of_nil]%elem_of_cons]%elem_of_cons]%elem_of_app;
        try done.
      pose proof (upload_log_only_console (fr :: files) n) as Honly.
      rewrite Hupload in Honly. destruct (Honly Hlog) as [msg ->]. done.
    + intros Hlog.
      pose proof (upload_log_only_console (fr :: files) n) as Honly.
      rewrite Hupload in Honly. destruct (Honly Hlog) as [msg ->]. done.
  - intros Hnone. unfold handleDrop. by rewrite Hnone.
Qed.

Lemma handleDrop_error_toast_changes_nothing_witness :
  ToastNoProject ∈ (handleDrop (mkDrop None (Some 0) 2 (Payload "x.png")
                                  (Resolved true (Some "x.png")) [])
                               (store_of ["a"; "b"] ∅)).2
  ∧ is_error_toast ToastNoProject
  ∧ (handleDrop (mkDrop None (Some 0) 2 (Payload "x.png")
                        (Resolved true (Some "x.png")) [])
                (store_of ["a"; "b"] ∅)).1 = store_of ["a"; "b"] ∅.
Proof.
  assert (ToastNoProject ∈ (handleDrop (mkDrop None (Some 0) 2 (Payload "x.png")
                                          (Resolved true (Some "x.png")) [])
                                       (store_of ["a"; "b"] ∅)).2) as Hin
    by apply list_elem_of_here.
  assert (is_error_toast ToastNoProject) as Htoast by exact I.
  split; [exact Hin|]. split; [exact Htoast|].
  exact (proj1 (proj1 (handleDrop_error_toast_changes_nothing _ _ _) Hin Htoast)).
Defined.

Lemma length_omap_le {A B} (f : A → option B) (l : list A) :
  length (omap f l) ≤ length l.
Proof.
  induction l as [|x l IH]; [done|]. csimpl. destruct (f x); simpl; lia.
Qed.

(** X6. A drop of files inserts exactly the names the backend accepted, in
    the order the files were dropped: the filenames it brings are the
    accepted replies to the image files, files that are not images and
    uploads that fail are skipped, and every inserted name is a non-empty
    name the backend returned with success for a dropped image. *)
Theorem file_drop_inserts_accepted_names (e : DropEvent) :
  truthy_opt (selectedProject e) ≠ None →
  pendingData e = NoPending →
  incoming e
  = omap (λ fr, accepted fr.2) (filter (λ fr, is_image fr.1 = true) (droppedFiles e))
  ∧ length (incoming e) ≤ length (droppedFiles e)
  ∧ (∀ f, f ∈ incoming e →
          f ≠ "" ∧ ∃ file, (file, Resolved true (Some f)) ∈ droppedFiles e
                           ∧ is_image file = true).
Proof.
  intros Hproject Hpending.
  assert (incoming e = omap (λ fr, accepted fr.2)
                         (filter (λ fr, is_image fr.1 = true) (droppedFiles e))) as Hin.
  { unfold incoming. destruct (truthy_opt (selectedProject e)); [|done].
    by rewrite Hpending, upload_all_spec. }
  split_and!; [done| |].
  - rewrite Hin. etrans; [apply length_omap_le|]. apply length_filter.
  - intros f. rewrite Hin. intros ([file reply] & Hfr & Hacc)%list_elem_of_omap.
    apply list_elem_of_filter in Hfr as [Himage Hfr]. simpl in *.
    apply accepted_Some in Hacc as [-> Hne]. eauto.
Qed.

Lemma file_drop_inserts_accepted_names_witness :
  truthy_opt (selectedProject
                (mkDrop (Some "demo") None 0 NoPending (Rejected "")
                        [(mkFile "notes.txt" "text/plain", Resolved true (Some "n.txt"));
                         (mkFile "one.PNG" "", Resolved true (Some "0001.png"));
                         (mkFile "two.jpg" "image/jpeg", Rejected "offline");
                         (mkFile "three.webp" "", Resolved true (Some "0002.webp"))])) ≠ None
  ∧ incoming (mkDrop (Some "demo") None 0 NoPending (Rejected "")
                [(mkFile "notes.txt" "text/plain", Resolved true (Some "n.txt"));
                 (mkFile "one.PNG" "", Resolved true (Some "0001.png"));
                 (mkFile "two.jpg" "image/jpeg", Rejected "offline");
                 (mkFile "three.webp" "", Resolved true (Some "0002.webp"))])
    = ["0001.png"; "0002.webp"].
Proof.
  assert (truthy_opt (selectedProject
            (mkDrop (Some "demo") None 0 NoPending (Rejected "")
               [(mkFile "notes.txt" "text/plain", Resolved true (Some "n.txt"));
                (mkFile "one.PNG" "", Resolved true (Some "0001.png"));
                (mkFile "two.jpg" "image/jpeg", Rejected "offline");
                (mkFile "three.webp" "", Resolved true (Some "0002.webp"))])) ≠ None)
    as Hproject by discriminate.
  split; [exact Hproject|].
  rewrite (proj1 (file_drop_inserts_accepted_names _ Hproject eq_refl)).
  reflexivity.
Defined.

Lemma elem_of_insertAt (index : nat) (new : list Screenshot) (st : Store) (x : Screenshot) :
  x ∈ new → x ∈ sortedScreenshots (insertAt index new st).
Proof. intros Hx. rewrite insertAt_perm. apply elem_of_app. by left. Qed.

Lemma insertAt_length (index : nat) (new : list Screenshot) (st : Store) :
  length (sortedScreenshots (insertAt index new st))
  = length (sortedScreenshots st) + length new.
Proof. rewrite (Permutation_length (insertAt_perm index new st)), length_app. lia. Qed.

(** X7. What a drop announces is what it did. The card it highlights is the
    last one it inserted, and that card is in the collection afterwards; the
    count in its message is the number of filenames it inserted, which is
    the growth of the collection; the single-insert message names the one
    filename inserted; and a drop that inserts anything highlights a card. *)
Theorem handleDrop_announces_what_it_inserted (e : DropEvent) (st : Store) :
  (∀ f, NewlyAdded f ∈ (handleDrop e st).2 →
        last (incoming e) = Some f
        ∧ mkScreenshot f "" ∈ sortedScreenshots (handleDrop e st).1)
  ∧ (∀ n, UploadMessageImported n ∈ (handleDrop e st).2 →
          n = length (incoming e) ∧ 0 < n
          ∧ length (sortedScreenshots (handleDrop e st).1)
            = length (sortedScreenshots st) + n)
  ∧ (∀ f, UploadMessageInserted f ∈ (handleDrop e st).2 → incoming e = [f])
  ∧ (incoming e ≠ [] → ∃ f, NewlyAdded f ∈ (handleDrop e st).2).
Proof.
  assert (∀ (x : Notice) files, x ∈ (upload_all files).2 →
            (∀ msg, x ≠ ConsoleUploadFailed msg) → False) as Hlog.
  { intros x files [msg ->]%upload_log_only_console Hx. by apply (Hx msg). }
  assert (∀ f names, last names = Some f →
            mkScreenshot f "" ∈ (λ f, mkScreenshot f "") <$> names) as Hlast_in.
  { intros f names Hf. apply list_elem_of_fmap. exists f. split; [done|].
    apply last_Some in Hf as [l' ->]. apply elem_of_app. right. apply list_elem_of_here. }
  split_and!.
  - intros f. drop_cases e;
      try (by intros ?%not_elem_of_nil);
      try (by intros [=]%list_elem_of_singleton).
    + intros [Hin|[[=]|[= ->]%list_elem_of_singleton]%elem_of_cons]%elem_of_app.
      * exfalso. apply (Hlog (NewlyAdded f) (fr :: files)); [by rewrite Hupload|done].
      * split; [done|]. by apply elem_of_insertAt, Hlast_in.
    + intros Hin. exfalso.
      apply (Hlog (NewlyAdded f) (fr :: files)); [by rewrite Hupload|done].
    + intros [[=]|[= ->]%list_elem_of_singleton]%elem_of_cons.
      split; [done|]. apply elem_of_insertAt, list_elem_of_here.
  - intros n. drop_cases e;
      try (by intros ?%not_elem_of_nil);
      try (by intros [=]%list_elem_of_singleton);
      try (by intros [[=]|[=]%list_elem_of_singleton]%elem_of_cons).
    + intros [Hin|[[= ->]|[=]%list_elem_of_singleton]%elem_of_cons]%elem_of_app.
      * exfalso.
        apply (Hlog (UploadMessageImported n) (fr :: files)); [by rewrite Hupload|done].
      * rewrite insertAt_length, length_fmap.
        split_and!; [done| |lia]. destruct names; [done|simpl; lia].
    + intros Hin. exfalso.
      apply (Hlog (UploadMessageImported n) (fr :: files)); [by rewrite Hupload|done].
  - intros f. drop_cases e;
      try (by intros ?%not_elem_of_nil);
      try (by intros [=]%list_elem_of_singleton).
    + intros [Hin|[[=]|[=]%list_elem_of_singleton]%elem_of_cons]%elem_of_app.
      exfalso.
      apply (Hlog (UploadMessageInserted f) (fr :: files)); [by rewrite Hupload|done].
    + intros Hin. exfalso.
      apply (Hlog (UploadMessageInserted f) (fr :: files)); [by rewrite Hupload|done].
    + by intros [[= ->]|[=]%list_elem_of_singleton]%elem_of_cons.
  - drop_cases e; try done.
    + intros _. exists s. apply elem_of_app. right.
      apply list_elem_of_further, list_elem_of_here.
    + intros Hne. by apply last_None in Hlast.
    + intros _. exists s. apply list_elem_of_further, list_elem_of_here.
Qed.

(** ** Which dropped files count as images *)

Lemma prefix_spec (p s : string) :
  String.prefix p s = true ↔ ∃ r, s = p +:+ r.
Proof.
  revert s. induction p as [|a p IH]; intros s.
  - split; [intros _; by exists s|intros _; by destruct s].
  - destruct s as [|b s]; simpl; [split; [done|by intros [r [=]]]|].
    destruct (Ascii.ascii_dec a b) as [->|Hne].
    + rewrite IH. split; [intros [r ->]; by exists r|intros [r [= ->]]; by exists r].
    + split; [done|]. intros [r [= <- _]]. done.
Qed.

Lemma substring_all (s : string) : String.substring 0 (String.length s) s = s.
Proof. induction s as [|c s IH]; [done|]. simpl. by rewrite IH. Qed.

Lemma substring_app_r (p q : string) :
  String.substring (String.length p) (String.length q) (p +:+ q) = q.
Proof. induction p as [|c p IH]; simpl; [apply substring_all|apply IH]. Qed.

Lemma length_app_string (p q : string) :
  String.length (p +:+ q) = String.length p + String.length q.
Proof. induction p as [|c p IH]; simpl; [done|by rewrite IH]. Qed.







(** ** Clicking cards *)

Lemma handleCardClick_view (e : MouseEvent) (index : nat) (f : string) (st : Store) :
  previewIndex (handleCardClick e index f st) = Some index
  ∧ lastClickedIndex (handleCardClick e index f st) = Some index
  ∧ hasChanges (handleCardClick e index f st) = hasChanges st.
Proof.
  unfold handleCardClick, toggleSelect.
  destruct (shiftKey e), (lastClickedIndex st), (ctrlKey e || metaKey e);
    simpl; repeat case_decide; done.
Qed.

Lemma shift_click_selection (e : MouseEvent) (anchor index : nat) (f : string) (st : Store) :
  shiftKey e = true → lastClickedIndex st = Some anchor →
  selectedFiles (handleCardClick e index f st)
  = list_to_set (filename <$> slice (Nat.min anchor index) (Nat.max anchor index + 1)
                                    (sortedScreenshots st)).
Proof. intros Hshift Hanchor. unfold handleCardClick. by rewrite Hshift, Hanchor. Qed.

(** X9. The anchor of a range selection is the card clicked last, whatever
    kind of click that was. A shift-click right after any click on card [i]
    (plain, with Ctrl or Meta, or itself a shift-click) selects the cards
    between [i] and the clicked card; every click leaves the collection, the
    undo log and the dirty flag alone and moves the preview to the clicked
    card; and a shift-click before any card was clicked selects the clicked
    card alone, like a plain click. *)
Theorem range_anchor_is_last_click
    (first second : MouseEvent) (i j : nat) (fi fj : string) (st : Store) :
  shiftKey second = true →
  let st1 := handleCardClick first i fi st in
  let st2 := handleCardClick second j fj st1 in
  selectedFiles st2
  = list_to_set (filename <$> slice (Nat.min i j) (Nat.max i j + 1) (sortedScreenshots st))
  ∧ sortedScreenshots st2 = sortedScreenshots st
  ∧ deletedBatches st2 = deletedBatches st
  ∧ hasChanges st2 = hasChanges st
  ∧ previewIndex st2 = Some j
  ∧ (lastClickedIndex st = None → ctrlKey second = false → metaKey second = false →
     selectedFiles (handleCardClick second j fj st) = {[ fj ]}).
Proof.
  intros Hshift st1 st2. subst st1 st2.
  destruct (handleCardClick_view first i fi st) as (_ & Hanchor & Hdirty1).
  destruct (handleCardClick_lists first i fi st) as [Hc1 Hb1].
  destruct (handleCardClick_view second j fj (handleCardClick first i fi st))
    as (Hpreview & _ & Hdirty2).
  destruct (handleCardClick_lists second j fj (handleCardClick first i fi st))
    as [Hc2 Hb2].
  split_and!.
  - by rewrite (shift_click_selection second i j fj _ Hshift Hanchor), Hc1.
  - by rewrite Hc2.
  - by rewrite Hb2.
  - by rewrite Hdirty2.
  - done.
  - intros Hnone Hctrl Hmeta. unfold handleCardClick.
    by rewrite Hshift, Hnone, Hctrl, Hmeta.
Qed.

Lemma range_anchor_is_last_click_witness :
  shiftKey (mkMouse true false false) = true
  ∧ selectedFiles (handleCardClick (mkMouse true false false) 3 "d"
                     (handleCardClick (mkMouse false true false) 1 "b"
                        (store_of ["a"; "b"; "c"; "d"; "e"] ∅)))
    = list_to_set (filename <$> slice (Nat.min 1 3) (Nat.max 1 3 + 1)
                     (sortedScreenshots (store_of ["a"; "b"; "c"; "d"; "e"] ∅))).
Proof.
  assert (shiftKey (mkMouse true false false) = true) as Hshift by reflexivity.
  split; [exact Hshift|].
  exact (proj1 (range_anchor_is_last_click (mkMouse false true false) _ 1 3 "b" "d"
                  (store_of ["a"; "b"; "c"; "d"; "e"] ∅) Hshift)).
Defined.

Lemma length_slice {A} (a b : nat) (l : list A) :
  b ≤ length l → length (slice a b l) = b - a.
Proof. intros Hb. unfold slice. rewrite length_take, length_drop. lia. Qed.

Lemma slice_sublist {A} (a b : nat) (l : list A) : slice a b l `sublist_of` l.
Proof. unfold slice. etrans; [apply sublist_take|apply sublist_drop]. Qed.

(** X10. In a collection without duplicate filenames, a range selection
    between two cards of the grid selects as many files as there are
    positions from the one to the other, both included, and the files of both
    cards are among them. *)
Theorem range_selection_size (st : Store) (i j : nat) (f : string) (si sj : Screenshot) :
  NoDup (filenames (sortedScreenshots st)) →
  sortedScreenshots st !! i = Some si →
  sortedScreenshots st !! j = Some sj →
  size (selectedFiles (selectRange i j f st)) = Nat.max i j - Nat.min i j + 1
  ∧ filename si ∈ selectedFiles (selectRange i j f st)
  ∧ filename sj ∈ selectedFiles (selectRange i j f st).
Proof.
  intros Hnodup Hi Hj.
  pose proof (lookup_lt_Some _ _ _ Hi) as Hilt.
  pose proof (lookup_lt_Some _ _ _ Hj) as Hjlt.
  rewrite selectRange_selection.
  assert (∀ k s, Nat.min i j ≤ k ≤ Nat.max i j → sortedScreenshots st !! k = Some s →
            filename s ∈ (list_to_set (filename <$> slice (Nat.min i j) (Nat.max i j + 1)
                                         (sortedScreenshots st)) : gset string)) as Hmember.
  { intros k s Hk Hs. apply elem_of_list_to_set, list_elem_of_fmap.
    exists s. split; [done|]. apply elem_of_slice. exists k. split; [lia|done]. }
  split_and!.
  - rewrite size_list_to_set.
    + rewrite length_fmap, length_slice by lia. lia.
    + unfold filenames in Hnodup.
      eapply sublist_NoDup; [exact Hnodup|apply fmap_sublist, slice_sublist].
  - apply (Hmember i); [lia|done].
  - apply (Hmember j); [lia|done].
Qed.

Lemma range_selection_size_witness :
  NoDup (filenames (sortedScreenshots (store_of ["a"; "b"; "c"; "d"; "e"] ∅)))
  ∧ sortedScreenshots (store_of ["a"; "b"; "c"; "d"; "e"] ∅) !! 3 = Some (shot "d")
  ∧ sortedScreenshots (store_of ["a"; "b"; "c"; "d"; "e"] ∅) !! 1 = Some (shot "b")
  ∧ size (selectedFiles (selectRange 3 1 "b" (store_of ["a"; "b"; "c"; "d"; "e"] ∅)))
    = Nat.max 3 1 - Nat.min 3 1 + 1.
Proof.
  assert (NoDup (filenames (sortedScreenshots (store_of ["a"; "b"; "c"; "d"; "e"] ∅))))
    as Hnodup.
  { apply (bool_decide_unpack (NoDup ["a"; "b"; "c"; "d"; "e"])). vm_compute. exact I. }
  assert (sortedScreenshots (store_of ["a"; "b"; "c"; "d"; "e"] ∅) !! 3 = Some (shot "d"))
    as H3 by reflexivity.
  assert (sortedScreenshots (store_of ["a"; "b"; "c"; "d"; "e"] ∅) !! 1 = Some (shot "b"))
    as H1 by reflexivity.
  split; [exact Hnodup|]. split; [exact H3|]. split; [exact H1|].
  exact (proj1 (range_selection_size _ 3 1 "b" _ _ Hnodup H3 H1)).
Defined.

(** ** Keyboard shortcuts *)

(** Case on the first test of the key still to be decided. *)
Ltac on_key_test k :=
  match goal with
  | |- context [String.eqb k ?x] => destruct (String.eqb_spec k x) as [->|?]
  end.

Lemma handleKeyDown_table (project : string) (selected : gset string) (preview : option nat)
    (confirm : nat → bool) (e : KeyboardEvent) :
  handleKeyDown project selected preview confirm e
  = shortcut_table project selected preview confirm e.
Proof.
  unfold handleKeyDown, shortcut_table, delete_key. destruct e as [ctrl k]. simpl.
  repeat (on_key_test k;
          [destruct ctrl; simpl; rewrite ?app_nil_r; reflexivity|]).
  by destruct ctrl.
Qed.

(** X11. The independent [if]s of the keyboard handler never fire together:
    every key press does what its one row of the shortcut table says. A key
    the page does not bind does nothing; without Ctrl the keys [a], [=], [+],
    [-] and [0] do nothing; and the default action of the browser is
    prevented exactly for Ctrl with one of these five keys. *)
Theorem key_press_runs_one_shortcut (project : string) (selected : gset string)
    (preview : option nat) (confirm : nat → bool) (e : KeyboardEvent) :
  handleKeyDown project selected preview confirm e
  = shortcut_table project selected preview confirm e
  ∧ (key e ∉ bound_keys → handleKeyDown project selected preview confirm e = [])
  ∧ (key_ctrlKey e = false → key e ∈ ["a"; "="; "+"; "-"; "0"] →
     handleKeyDown project selected preview confirm e = [])
  ∧ (PreventDefault ∈ handleKeyDown project selected preview confirm e ↔
     key_ctrlKey e = true ∧ key e ∈ ["a"; "="; "+"; "-"; "0"]).
Proof.
  assert (∀ n, PreventDefault ∉ confirm_then_delete project n confirm) as Hdelete.
  { intros n. unfold confirm_then_delete.
    destruct (Nat.leb n 10), (confirm n);
      rewrite ?elem_of_cons, ?elem_of_nil; intros H; repeat destruct H as [H|H]; done. }
  split; [apply handleKeyDown_table|].
  split; [|split].
  - rewrite handleKeyDown_table. unfold shortcut_table, bound_keys.
    destruct e as [ctrl k]. simpl. intros Hunbound.
    repeat (on_key_test k; [exfalso; apply Hunbound; rewrite !elem_of_cons; tauto|]).
    done.
  - rewrite handleKeyDown_table. unfold shortcut_table.
    destruct e as [ctrl k]. simpl. intros -> Hkey.
    repeat (on_key_test k; [done|]).
    exfalso. rewrite !elem_of_cons, elem_of_nil in Hkey. tauto.
  - unfold handleKeyDown.
    assert (PreventDefault ∈ confirm_then_delete project (size selected) confirm ↔ False)
      as Hnever by (split; [apply Hdelete|done]).
    rewrite !elem_of_app, !elem_of_when, Hnever, !andb_true_iff, !orb_true_iff,
      !String.eqb_eq, !elem_of_cons, !elem_of_nil.
    intuition discriminate.
Qed.

(** ** The buttons that act on the collection *)

Lemma elem_of_clickable (confirm : nat → bool) (v : PageView) (i : Intent) :
  i ∈ clickable confirm v ↔
  ∃ b, b ∈ action_buttons confirm v ∧ disabled b = false ∧ i ∈ onClick b.
Proof.
  unfold clickable. rewrite list_elem_of_bind. split.
  - intros (b & Hi & [Hen Hb]%list_elem_of_filter). eauto.
  - intros (b & Hb & Hen & Hi). exists b. split; [done|].
    by apply list_elem_of_filter.
Qed.

Lemma elem_of_with_project (project : option string) (f : string → Intent) (i : Intent) :
  i ∈ with_project project f ↔ ∃ p, truthy_opt project = Some p ∧ i = f p.
Proof.
  unfold with_project. destruct (truthy_opt project) as [p|].
  - rewrite list_elem_of_singleton. split; [eauto|by intros (? & [= <-] & ->)].
  - split; [by intros ?%not_elem_of_nil|by intros (? & [=] & _)].
Qed.

Lemma elem_of_if (b : bool) {A} (x : A) (l : list A) :
  x ∈ (if b then l else []) ↔ b = true ∧ x ∈ l.
Proof.
  destruct b; [tauto|]. split; [by intros ?%not_elem_of_nil|by intros [? _]].
Qed.

Lemma elem_of_topbar_actions (confirm : nat → bool) (v : PageView) (b : Button) :
  b ∈ topbar_actions confirm v ↔
  (∃ p, truthy_opt (view_project v) = Some p)
  ∧ 0 < length (sortedScreenshots (view_store v))
  ∧ (b = mkButton SelectToggle false
           [RunHandler (if Nat.ltb 0 (size (selectedFiles (view_store v)))
                        then [Call DeselectAllAction] else [Call SelectAllAction])]
     ∨ (0 < size (selectedFiles (view_store v))
        ∧ b = mkButton TopbarDelete (view_saving v)
                [RunHandler (handleDeleteSelected (view_project v)
                               (selectedFiles (view_store v)) confirm)])
     ∨ (0 < length (deletedBatches (view_store v))
        ∧ b = mkButton ShowDeleted false [ToggleShowDeleted])
     ∨ (hasChanges (view_store v) = true
        ∧ (b = mkButton SaveOrder (view_saving v)
                 (with_project (view_project v) SaveSortOrder)
           ∨ b = mkButton ApplyOrder (view_saving v)
                   (with_project (view_project v) ApplySortOrder)))).
Proof.
  unfold topbar_actions. destruct (truthy_opt (view_project v)) as [p|].
  - rewrite (elem_of_if (Nat.ltb 0 _)), Nat.ltb_lt, !elem_of_app, !elem_of_if,
      !Nat.ltb_lt, !elem_of_cons, !elem_of_nil.
    split; [intros [? ?]; split; [eauto|tauto]|tauto].
  - split; [by intros ?%not_elem_of_nil|by intros [[? [=]] _]].
Qed.

Lemma elem_of_deleted_panel (v : PageView) (b : Button) :
  b ∈ deleted_panel v ↔
  view_showDeleted v = true
  ∧ ∃ batch, batch ∈ deletedBatches (view_store v)
             ∧ b = mkButton (Restore (timestamp batch)) (view_saving v)
                     (with_project (view_project v)
                        (λ p, RestoreBatch p (timestamp batch))).
Proof.
  unfold deleted_panel. rewrite elem_of_if, andb_true_iff, Nat.ltb_lt, list_elem_of_fmap.
  split.
  - intros [[Hshow _] (batch & -> & Hbatch)]. eauto.
  - intros [Hshow (batch & Hbatch & ->)]. split_and!; [done| |eauto].
    destruct (deletedBatches (view_store v)); [by apply not_elem_of_nil in Hbatch|].
    simpl. lia.
Qed.

Lemma elem_of_mounted_bar (confirm : nat → bool) (project : option string)
    (selected : gset string) (saving : bool) (b : Button) :
  b ∈ mounted_bar confirm project selected saving ↔
  0 < size selected
  ∧ (∃ p, truthy_opt project = Some p)
  ∧ (b = mkButton BarDeselect false [RunHandler [Call DeselectAllAction]]
     ∨ b = mkButton BarDelete saving
             [RunHandler (handleDeleteSelected project selected confirm)]).
Proof.
  unfold mounted_bar, SelectionBar.
  destruct (Nat.ltb_spec 0 (size selected)) as [Hpos|Hzero].
  - destruct (truthy_opt project) as [p|].
    + destruct (Nat.eqb_spec (size selected) 0) as [Heq|_]; [lia|].
      rewrite !elem_of_cons, elem_of_nil. split; [intros ?; split_and!; eauto; tauto|tauto].
    + split; [by intros ?%not_elem_of_nil|by intros (_ & [? [=]] & _)].
  - split; [by intros ?%not_elem_of_nil|intros [? _]; lia].
Qed.

Lemma mounted_bar_nil (confirm : nat → bool) (project : option string)
    (selected : gset string) (saving : bool) :
  mounted_bar confirm project selected saving = [] ↔
  selected = ∅ ∨ truthy_opt project = None.
Proof.
  unfold mounted_bar, SelectionBar.
  rewrite <- (leibniz_equiv_iff selected ∅), <- (size_empty_iff selected).
  destruct (Nat.ltb_spec 0 (size selected)) as [Hpos|Hzero].
  - destruct (truthy_opt project) as [p|]; [|by split; [right|]].
    destruct (Nat.eqb_spec (size selected) 0) as [Heq|_]; [lia|].
    split; [done|]. intros [?|?]; [lia|done].
  - split; [left; lia|done].
Qed.

Lemma elem_of_selection_bar (confirm : nat → bool) (v : PageView) (b : Button) :
  b ∈ selection_bar confirm v ↔
  b ∈ mounted_bar confirm (view_project v) (selectedFiles (view_store v)) (view_saving v)
  ∨ (mounted_bar confirm (view_project v) (selectedFiles (view_store v)) (view_saving v) = []
     ∧ ∃ old, view_exiting_bar v = Some old
              ∧ b ∈ mounted_bar confirm (bar_project old) (bar_selected old) (bar_saving old)).
Proof.
  unfold selection_bar. cbv zeta.
  destruct (mounted_bar confirm (view_project v) _ _) as [|b0 bar].
  - destruct (view_exiting_bar v) as [old|].
    + split; [eauto 10|]. intros [?%not_elem_of_nil|(_ & old' & [= <-] & Hb)]; done.
    + split; [by intros ?%not_elem_of_nil|].
      intros [?%not_elem_of_nil|(_ & old' & [=] & _)]; done.
  - split; [intros ?; by left|]. by intros [?|[[=] _]].
Qed.

Lemma size_pos_nonempty (s : gset string) : 0 < size s ↔ s ≠ ∅.
Proof.
  rewrite <- (leibniz_equiv_iff s ∅), <- (size_empty_iff s). lia.
Qed.

(** X12. An enabled button calls [deleteSelected] only through the
    [handleDeleteSelected] of a render that had a non-empty selection, a
    selected project and [saving] off, for that project, and with more than
    10 files selected in that render only after the user has confirmed.
    (The handler does not test the selection itself; the render does, by
    mounting the delete buttons only for a non-empty selection.) That render
    is the current one for the button of the top bar and for a selection
    bar that is mounted; for the bar that is on its way out it is the
    earlier render that mounted it, and then the current render has no
    selection or no project. With no bar on its way out the call is never
    made for an empty selection nor while a save is running. *)
Theorem buttons_delete_only_a_selection
    (confirm : nat → bool) (v : PageView) (effects : list Effect) (p : string) :
  RunHandler effects ∈ clickable confirm v →
  Call (DeleteSelected p) ∈ effects →
  (∃ project selected saving,
     ((project = view_project v ∧ selected = selectedFiles (view_store v)
       ∧ saving = view_saving v)
      ∨ (view_exiting_bar v = Some (mkBarRender project selected saving)
         ∧ (selectedFiles (view_store v) = ∅ ∨ truthy_opt (view_project v) = None)))
     ∧ effects = handleDeleteSelected project selected confirm
     ∧ selected ≠ ∅
     ∧ saving = false
     ∧ truthy_opt project = Some p
     ∧ (10 < size selected → confirm (size selected) = true))
  ∧ (view_exiting_bar v = None →
     selectedFiles (view_store v) ≠ ∅
     ∧ view_saving v = false
     ∧ truthy_opt (view_project v) = Some p
     ∧ (10 < size (selectedFiles (view_store v)) →
        confirm (size (selectedFiles (view_store v))) = true)).
Proof.
  intros (b & Hb & Henabled & Hclick)%elem_of_clickable Hcall.
  assert (∀ project selected saving,
            0 < size selected → saving = false →
            effects = handleDeleteSelected project selected confirm →
            selected ≠ ∅ ∧ saving = false ∧ truthy_opt project = Some p
            ∧ (10 < size selected → confirm (size selected) = true)) as Hguard.
  { intros project selected saving Hpos Hidle ->.
    apply elem_of_handleDeleteSelected_delete in Hcall as [Hproject Hok].
    split_and!; [by apply size_pos_nonempty|done|done|].
    intros Hmany. destruct Hok as [Hfew|Hyes]; [lia|done]. }
  assert (∃ project selected saving,
            ((project = view_project v ∧ selected = selectedFiles (view_store v)
              ∧ saving = view_saving v)
             ∨ (view_exiting_bar v = Some (mkBarRender project selected saving)
                ∧ (selectedFiles (view_store v) = ∅ ∨ truthy_opt (view_project v) = None)))
            ∧ 0 < size selected ∧ saving = false
            ∧ effects = handleDeleteSelected project selected confirm)
    as (project & selected & saving & Hwhich & Hpos & Hidle & Heffects).
  { unfold action_buttons in Hb. rewrite !elem_of_app in Hb.
    destruct Hb as [Hb|[Hb|Hb]].
    - apply elem_of_topbar_actions in Hb as (_ & _ & [->|[[Hpos ->]|[[_ ->]|[_ [->| ->]]]]]);
        simpl in *.
      + apply list_elem_of_singleton in Hclick as [= ->].
        destruct (Nat.ltb 0 _); apply list_elem_of_singleton in Hcall; discriminate Hcall.
      + apply list_elem_of_singleton in Hclick as [= ->]. eauto 10.
      + apply list_elem_of_singleton in Hclick. discriminate Hclick.
      + by apply elem_of_with_project in Hclick as (? & _ & [=]).
      + by apply elem_of_with_project in Hclick as (? & _ & [=]).
    - apply elem_of_deleted_panel in Hb as (_ & batch & _ & ->). simpl in *.
      by apply elem_of_with_project in Hclick as (? & _ & [=]).
    - apply elem_of_selection_bar in Hb as [Hb|(Hnone & [project selected saving] & Hold & Hb)].
      + apply elem_of_mounted_bar in Hb as (Hpos & _ & [->| ->]); simpl in *.
        * apply list_elem_of_singleton in Hclick as [= ->].
          apply list_elem_of_singleton in Hcall. discriminate Hcall.
        * apply list_elem_of_singleton in Hclick as [= ->]. eauto 10.
      + apply mounted_bar_nil in Hnone.
        apply elem_of_mounted_bar in Hb as (Hpos & _ & [->| ->]); simpl in *.
        * apply list_elem_of_singleton in Hclick as [= ->].
          apply list_elem_of_singleton in Hcall. discriminate Hcall.
        * apply list_elem_of_singleton in Hclick as [= ->].
          exists project, selected, saving. split_and!; [right|..]; done. }
  split.
  - exists project, selected, saving.
    destruct (Hguard project selected saving Hpos Hidle Heffects) as (? & ? & ? & ?).
    done.
  - intros Hnone. destruct Hwhich as [(-> & -> & ->)|[Hold _]].
    + by apply Hguard.
    + rewrite Hnone in Hold. discriminate Hold.
Qed.

Lemma buttons_delete_only_a_selection_witness :
  RunHandler [Call (DeleteSelected "demo")]
    ∈ clickable (λ _, false)
        (mkView (Some "demo") (store_of ["a"; "b"] ∅) false false
                (Some (mkBarRender (Some "demo") {["a"]} false)))
  ∧ Call (DeleteSelected "demo") ∈ [Call (DeleteSelected "demo")]
  ∧ selectedFiles (store_of ["a"; "b"] ∅) = ∅
  ∧ ∃ project selected saving,
      ((project = Some "demo" ∧ selected = ∅ ∧ saving = false)
       ∨ (Some (mkBarRender (Some "demo") {["a"]} false)
          = Some (mkBarRender project selected saving)
          ∧ ((∅ : gset string) = ∅ ∨ truthy_opt (Some "demo") = None)))
      ∧ [Call (DeleteSelected "demo")] = handleDeleteSelected project selected (λ _, false)
      ∧ selected ≠ ∅
      ∧ saving = false
      ∧ truthy_opt project = Some "demo"
      ∧ (10 < size selected → false = true).
Proof.
  assert (RunHandler [Call (DeleteSelected "demo")]
            ∈ clickable (λ _, false)
                (mkView (Some "demo") (store_of ["a"; "b"] ∅) false false
                        (Some (mkBarRender (Some "demo") {["a"]} false)))) as Hclick.
  { vm_compute. do 2 apply list_elem_of_further. apply list_elem_of_here. }
  assert (Call (DeleteSelected "demo") ∈ [Call (DeleteSelected "demo")]) as Hcall
    by apply list_elem_of_here.
  split; [exact Hclick|]. split; [exact Hcall|]. split; [reflexivity|].
  exact (proj1 (buttons_delete_only_a_selection _ _ _ _ Hclick Hcall)).
Defined.

(** X13. A save can be asked for exactly when there is something to save and
    no save is running: [saveSortOrder] (and likewise [applySortOrder]) for
    a project is one click away if and only if that project is selected, the
    collection is not empty, the dirty flag is set and [saving] is off. *)
Theorem buttons_save_when_dirty_and_idle (confirm : nat → bool) (v : PageView) (p : string) :
  (SaveSortOrder p ∈ clickable confirm v ↔
   truthy_opt (view_project v) = Some p
   ∧ sortedScreenshots (view_store v) ≠ []
   ∧ hasChanges (view_store v) = true
   ∧ view_saving v = false)
  ∧ (ApplySortOrder p ∈ clickable confirm v ↔ SaveSortOrder p ∈ clickable confirm v).
Proof.
  assert (∀ (f : string → Intent) id,
            (f = SaveSortOrder ∧ id = SaveOrder) ∨ (f = ApplySortOrder ∧ id = ApplyOrder) →
            f p ∈ clickable confirm v ↔
            truthy_opt (view_project v) = Some p
            ∧ sortedScreenshots (view_store v) ≠ []
            ∧ hasChanges (view_store v) = true
            ∧ view_saving v = false) as Hboth.
  { intros f id Hf. rewrite elem_of_clickable. split.
    - intros (b & Hb & Henabled & Hclick).
      unfold action_buttons in Hb. rewrite !elem_of_app in Hb.
      destruct Hb as [Hb|[Hb|Hb]].
      + apply elem_of_topbar_actions in Hb
          as (_ & Hlen & [->|[[_ ->]|[[_ ->]|[Hdirty [->| ->]]]]]); simpl in *.
        * apply list_elem_of_singleton in Hclick. by destruct Hf as [[-> _]|[-> _]].
        * apply list_elem_of_singleton in Hclick. by destruct Hf as [[-> _]|[-> _]].
        * apply list_elem_of_singleton in Hclick. by destruct Hf as [[-> _]|[-> _]].
        * apply elem_of_with_project in Hclick as (q & Hq & Heq).
          destruct Hf as [[-> _]|[-> _]]; [|done]. injection Heq as ->.
          split_and!; try done. intros Hnil. rewrite Hnil in Hlen. simpl in Hlen. lia.
        * apply elem_of_with_project in Hclick as (q & Hq & Heq).
          destruct Hf as [[-> _]|[-> _]]; [done|]. injection Heq as ->.
          split_and!; try done. intros Hnil. rewrite Hnil in Hlen. simpl in Hlen. lia.
      + apply elem_of_deleted_panel in Hb as (_ & batch & _ & ->). simpl in *.
        apply elem_of_with_project in Hclick as (q & _ & Heq).
        by destruct Hf as [[-> _]|[-> _]].
      + apply elem_of_selection_bar in Hb as [Hb|(_ & old & _ & Hb)];
          apply elem_of_mounted_bar in Hb as (_ & _ & [->| ->]); simpl in *;
          apply list_elem_of_singleton in Hclick; by destruct Hf as [[-> _]|[-> _]].
    - intros (Hproject & Hlen & Hdirty & Hidle).
      exists (mkButton id (view_saving v) (with_project (view_project v) f)).
      split_and!; [|done|apply elem_of_with_project; eauto].
      unfold action_buttons. apply elem_of_app. left.
      apply elem_of_topbar_actions. split_and!; [eauto| |].
      + destruct (sortedScreenshots (view_store v)); [done|simpl; lia].
      + do 3 right. split; [done|]. destruct Hf as [[-> ->]|[-> ->]]; auto. }
  split.
  - apply (Hboth SaveSortOrder SaveOrder). by left.
  - rewrite (Hboth ApplySortOrder ApplyOrder) by (by right).
    rewrite (Hboth SaveSortOrder SaveOrder) by (by left). done.
Qed.

Lemma restoreBatch_present (ts : nat) (st : Store) (batch : DeletedBatch) :
  batch ∈ deletedBatches st → timestamp batch = ts → raised (restoreBatch ts st) = None.
Proof.
  intros Hin Hts. unfold restoreBatch.
  destruct (list_find_elem_of (has_timestamp ts) (deletedBatches st) batch Hin Hts)
    as [[i b] ->].
  done.
Qed.

(** X14. A restore can be asked for exactly for the batches the panel shows:
    [restoreBatch] for a project and a timestamp is one click away if and
    only if that project is selected, the panel of deleted batches is open,
    [saving] is off and the undo log holds a batch with that timestamp. So a
    restore asked for from the page never fails for a missing batch, and the
    open panel shows one restore button per batch. *)
Theorem buttons_restore_logged_batches
    (confirm : nat → bool) (v : PageView) (p : string) (ts : nat) :
  (RestoreBatch p ts ∈ clickable confirm v ↔
   truthy_opt (view_project v) = Some p
   ∧ view_showDeleted v = true
   ∧ view_saving v = false
   ∧ ∃ batch, batch ∈ deletedBatches (view_store v) ∧ timestamp batch = ts)
  ∧ (RestoreBatch p ts ∈ clickable confirm v →
     raised (restoreBatch ts (view_store v)) = None)
  ∧ (view_showDeleted v = true →
     length (deleted_panel v) = length (deletedBatches (view_store v))).
Proof.
  assert (RestoreBatch p ts ∈ clickable confirm v ↔
          truthy_opt (view_project v) = Some p
          ∧ view_showDeleted v = true
          ∧ view_saving v = false
          ∧ ∃ batch, batch ∈ deletedBatches (view_store v) ∧ timestamp batch = ts) as Hiff.
  { rewrite elem_of_clickable. split.
    - intros (b & Hb & Henabled & Hclick).
      unfold action_buttons in Hb. rewrite !elem_of_app in Hb.
      destruct Hb as [Hb|[Hb|Hb]].
      + apply elem_of_topbar_actions in Hb
          as (_ & _ & [->|[[_ ->]|[[_ ->]|[_ [->| ->]]]]]); simpl in *;
          try (by apply list_elem_of_singleton in Hclick);
          by apply elem_of_with_project in Hclick as (? & _ & [=]).
      + apply elem_of_deleted_panel in Hb as (Hshow & batch & Hbatch & ->). simpl in *.
        apply elem_of_with_project in Hclick as (q & Hq & [= -> ->]). eauto 10.
      + apply elem_of_selection_bar in Hb as [Hb|(_ & old & _ & Hb)];
          apply elem_of_mounted_bar in Hb as (_ & _ & [->| ->]); simpl in *;
          by apply list_elem_of_singleton in Hclick.
    - intros (Hproject & Hshow & Hidle & batch & Hbatch & <-).
      exists (mkButton (Restore (timestamp batch)) (view_saving v)
                (with_project (view_project v) (λ q, RestoreBatch q (timestamp batch)))).
      split_and!; [|done|apply elem_of_with_project; eauto].
      unfold action_buttons. apply elem_of_app. right. apply elem_of_app. left.
      apply elem_of_deleted_panel. eauto. }
  split_and!.
  - exact Hiff.
  - intros (_ & _ & _ & batch & Hbatch & Hts)%Hiff. by eapply restoreBatch_present.
  - intros Hshow. unfold deleted_panel. rewrite Hshow. simpl.
    destruct (deletedBatches (view_store v)) as [|b l] eqn:Hlog; [done|].
    simpl. by rewrite length_fmap.
Qed.

(** X15. With an empty collection and the panel of deleted batches closed,
    the action group of the top bar and the panel render no button, whatever
    the undo log holds. In a state that keeps the selection inside the
    collection the only buttons left are those of a selection bar on its way
    out, so a click can only run a handler of that bar: the button that
    opens the panel of deleted batches cannot be clicked, no restore, save
    or apply can be asked for, and once the bar is gone there is no button
    at all that acts on the collection. *)
Theorem nothing_to_click_on_an_empty_collection (confirm : nat → bool) (v : PageView) :
  sortedScreenshots (view_store v) = [] →
  selection_in_collection (view_store v) →
  view_showDeleted v = false →
  topbar_actions confirm v = []
  ∧ deleted_panel v = []
  ∧ action_buttons confirm v
    = match view_exiting_bar v with
      | Some old => mounted_bar confirm (bar_project old) (bar_selected old) (bar_saving old)
      | None => []
      end
  ∧ (ToggleShowDeleted ∉ clickable confirm v)
  ∧ (∀ i, i ∈ clickable confirm v →
          i = RunHandler [Call DeselectAllAction]
          ∨ ∃ old, view_exiting_bar v = Some old
                   ∧ i = RunHandler (handleDeleteSelected (bar_project old) (bar_selected old)
                                       confirm))
  ∧ (view_exiting_bar v = None → action_buttons confirm v = [] ∧ clickable confirm v = []).
Proof.
  intros Hempty Hsel Hclosed.
  assert (selectedFiles (view_store v) = ∅) as Hnone.
  { apply leibniz_equiv. intros f. split; [|by intros ?%not_elem_of_empty].
    intros Hf%Hsel. rewrite Hempty in Hf. by apply not_elem_of_nil in Hf. }
  assert (topbar_actions confirm v = []) as Htop.
  { unfold topbar_actions. rewrite Hempty. simpl.
    by destruct (truthy_opt (view_project v)). }
  assert (deleted_panel v = []) as Hpanel.
  { unfold deleted_panel. by rewrite Hclosed. }
  assert (action_buttons confirm v
          = match view_exiting_bar v with
            | Some old =>
                mounted_bar confirm (bar_project old) (bar_selected old) (bar_saving old)
            | None => []
            end) as Hbar.
  { unfold action_buttons. rewrite Htop, Hpanel. simpl. unfold selection_bar.
    assert (mounted_bar confirm (view_project v) (selectedFiles (view_store v))
              (view_saving v) = []) as -> by (apply mounted_bar_nil; by left).
    done. }
  assert (∀ i, i ∈ clickable confirm v →
               i = RunHandler [Call DeselectAllAction]
               ∨ ∃ old, view_exiting_bar v = Some old
                        ∧ i = RunHandler (handleDeleteSelected (bar_project old)
                                            (bar_selected old) confirm)) as Hclicks.
  { intros i (b & Hb & _ & Hi)%elem_of_clickable. rewrite Hbar in Hb.
    destruct (view_exiting_bar v) as [old|]; [|by apply not_elem_of_nil in Hb].
    apply elem_of_mounted_bar in Hb as (_ & _ & [->| ->]); simpl in Hi;
      apply list_elem_of_singleton in Hi as ->; eauto. }
  split_and!; try done.
  - intros [Hi|(old & _ & Hi)]%Hclicks; discriminate Hi.
  - intros Hgone. rewrite Hgone in Hbar. split; [done|].
    unfold clickable. by rewrite Hbar.
Qed.

Lemma nothing_to_click_on_an_empty_collection_witness :
  sortedScreenshots (next (deleteSelected (selectAll (store_of ["a"; "b"] ∅)))) = []
  ∧ selection_in_collection (next (deleteSelected (selectAll (store_of ["a"; "b"] ∅))))
  ∧ length (deletedBatches (next (deleteSelected (selectAll (store_of ["a"; "b"] ∅))))) = 1
  ∧ ToggleShowDeleted
    ∉ clickable (λ _, true)
        (mkView (Some "demo") (next (deleteSelected (selectAll (store_of ["a"; "b"] ∅))))
                false false (Some (mkBarRender (Some "demo") {["a"; "b"]} false))).
Proof.
  assert (sortedScreenshots (next (deleteSelected (selectAll (store_of ["a"; "b"] ∅)))) = [])
    as Hempty by (vm_compute; reflexivity).
  assert (selection_in_collection
            (next (deleteSelected (selectAll (store_of ["a"; "b"] ∅))))) as Hsel.
  { apply (apply_op_selection OpDeleteSelected), (apply_op_selection OpSelectAll).
    intros f Hf. by apply not_elem_of_empty in Hf. }
  split; [exact Hempty|]. split; [exact Hsel|].
  split; [vm_compute; reflexivity|].
  exact (proj1 (proj2 (proj2 (proj2
           (nothing_to_click_on_an_empty_collection (λ _, true)
              (mkView (Some "demo")
                 (next (deleteSelected (selectAll (store_of ["a"; "b"] ∅)))) false false
                 (Some (mkBarRender (Some "demo") {["a"; "b"]} false)))
              Hempty Hsel eq_refl))))).
Defined.

(** ** Ending a drag on a card *)

Lemma findIndex_card (l : list Screenshot) (f : string) :
  f ∈ filenames l →
  ∃ i s, findIndex (λ s, bool_decide (filename s = f)) l = Z.of_nat i
         ∧ l !! i = Some s ∧ filename s = f.
Proof.
  intros (s & -> & Hs)%list_elem_of_fmap.
  destruct (findIndex_lookup (λ x, bool_decide (filename x = filename s)) l s Hs)
    as (i & s' & Hi & Hl & Hp); [by apply bool_decide_eq_true|].
  apply bool_decide_eq_true in Hp. eauto.
Qed.

(** X16. A drag that ends on another card of the grid calls [reorder] with
    the positions of two cards of the collection: the indices [findIndex]
    returns are those of cards carrying the dragged and the target filename,
    so they are different and within the collection ([findIndex] does not
    answer [-1] here), and [reorder]'s precondition holds. *)
Theorem drag_end_reorders_card_positions (st : Store) (active over : string) :
  active ≠ over →
  active ∈ filenames (sortedScreenshots st) →
  over ∈ filenames (sortedScreenshots st) →
  ∃ i j si sj,
    sortedScreenshots st !! i = Some si ∧ filename si = active
    ∧ sortedScreenshots st !! j = Some sj ∧ filename sj = over
    ∧ i ≠ j
    ∧ (0 ≤ Z.of_nat i < Z.of_nat (length (sortedScreenshots st)))%Z
    ∧ (0 ≤ Z.of_nat j < Z.of_nat (length (sortedScreenshots st)))%Z
    ∧ handleDragEnd active (Some over) st = reorder (Z.of_nat i) (Z.of_nat j) st.
Proof.
  intros Hne (i & si & Hi & Hsi & Hfi)%findIndex_card (j & sj & Hj & Hsj & Hfj)%findIndex_card.
  exists i, j, si, sj.
  pose proof (lookup_lt_Some _ _ _ Hsi). pose proof (lookup_lt_Some _ _ _ Hsj).
  split_and!; try done; try lia.
  - intros ->. congruence.
  - unfold handleDragEnd. rewrite decide_True by done. by rewrite Hi, Hj.
Qed.

Lemma drag_end_reorders_card_positions_witness :
  "a" ≠ "c"
  ∧ "a" ∈ filenames (sortedScreenshots (store_of ["a"; "b"; "c"] ∅))
  ∧ "c" ∈ filenames (sortedScreenshots (store_of ["a"; "b"; "c"] ∅))
  ∧ ∃ i j, handleDragEnd "a" (Some "c") (store_of ["a"; "b"; "c"] ∅)
           = reorder (Z.of_nat i) (Z.of_nat j) (store_of ["a"; "b"; "c"] ∅).
Proof.
  assert ("a" ≠ "c") as Hne by discriminate.
  assert ("a" ∈ filenames (sortedScreenshots (store_of ["a"; "b"; "c"] ∅))) as Ha
    by apply list_elem_of_here.
  assert ("c" ∈ filenames (sortedScreenshots (store_of ["a"; "b"; "c"] ∅))) as Hc
    by (do 2 apply list_elem_of_further; apply list_elem_of_here).
  split; [exact Hne|]. split; [exact Ha|]. split; [exact Hc|].
  destruct (drag_end_reorders_card_positions _ "a" "c" Hne Ha Hc)
    as (i & j & _ & _ & _ & _ & _ & _ & _ & _ & _ & Hcall).
  exists i, j. exact Hcall.
Defined.

(** ** The number on a card *)

Lemma pretty_N_go_head (x : N) (s : string) :
  (0 < x)%N → ∃ c r, pretty_N_go x s = String c r ∧ c ≠ digit_zero.
Proof.
  revert s. induction (N.lt_wf_0 x) as [x _ IH]; intros s Hpos.
  rewrite pretty_N_go_step by done.
  assert (x < 10 ∨ 10 ≤ x)%N as [Hsmall|Hbig] by lia.
  - rewrite N.div_small, pretty_N_go_0, N.mod_small by done.
    exists (pretty_N_char x), s. split; [done|].
    assert (x = 1 ∨ x = 2 ∨ x = 3 ∨ x = 4 ∨ x = 5 ∨ x = 6 ∨ x = 7 ∨ x = 8 ∨ x = 9)%N
      as Hx by lia.
    repeat destruct Hx as [->|Hx]; try subst x; discriminate.
  - apply IH.
    + by apply N.div_lt.
    + apply N.div_str_pos. lia.
Qed.

Lemma pretty_N_go_length (k : nat) (x : N) (s : string) :
  (x < 10 ^ N.of_nat k)%N →
  String.length (pretty_N_go x s) ≤ String.length s + k.
Proof.
  revert x s. induction k as [|k IH]; intros x s Hx.
  - assert (x = 0)%N as -> by (simpl in Hx; lia). rewrite pretty_N_go_0. lia.
  - assert (x = 0 ∨ 0 < x)%N as [->|Hpos] by lia; [rewrite pretty_N_go_0; lia|].
    rewrite pretty_N_go_step by done.
    etrans; [apply IH|simpl; lia].
    apply N.Div0.div_lt_upper_bound.
    rewrite Nat2N.inj_succ, N.pow_succ_r' in Hx. lia.
Qed.

Lemma pretty_succ (n : nat) : pretty (n + 1) = pretty_N_go (N.of_nat (n + 1)) "".
Proof.
  unfold pretty, pretty_nat, pretty, pretty_N. rewrite decide_False by lia. done.
Qed.

Lemma length_repeat_char (n : nat) (c : Ascii.ascii) : String.length (repeat_char n c) = n.
Proof. induction n as [|n IH]; simpl; [done|by rewrite IH]. Qed.

Lemma length_padStart (target : nat) (pad : Ascii.ascii) (s : string) :
  String.length (padStart target pad s) = Nat.max target (String.length s).
Proof.
  unfold padStart. rewrite length_app_string, length_repeat_char. lia.
Qed.

Lemma padded_inj (k k' : nat) (c c' : Ascii.ascii) (r r' : string) :
  c ≠ digit_zero → c' ≠ digit_zero →
  repeat_char k digit_zero +:+ String c r = repeat_char k' digit_zero +:+ String c' r' →
  String c r = String c' r'.
Proof.
  intros Hc Hc'. revert k'. induction k as [|k IH]; intros [|k']; simpl.
  - done.
  - intros [= -> _]. done.
  - intros [= <- _]. done.
  - intros [= Heq]. by apply (IH k').
Qed.

(** X17. The numbers on the cards tell the cards apart and line up: two
    cards show the same label only if they are at the same position; every
    label has at least four characters, and exactly four up to the 9999th
    card. *)
Theorem index_label_unique_and_aligned (i j : nat) :
  (index_label i = index_label j → i = j)
  ∧ 4 ≤ String.length (index_label i)
  ∧ ((N.of_nat i < 9999)%N → String.length (index_label i) = 4).
Proof.
  unfold index_label. split_and!.
  - rewrite !pretty_succ. unfold padStart.
    destruct (pretty_N_go_head (N.of_nat (i + 1)) "") as (c & r & Hi & Hc); [lia|].
    destruct (pretty_N_go_head (N.of_nat (j + 1)) "") as (c' & r' & Hj & Hc'); [lia|].
    intros Heq. rewrite Hi, Hj in Heq.
    apply padded_inj in Heq; [|done..].
    rewrite <- Hi, <- Hj, <- !pretty_succ in Heq.
    apply (inj pretty) in Heq. lia.
  - rewrite length_padStart. lia.
  - intros Hi. rewrite length_padStart, pretty_succ.
    pose proof (pretty_N_go_length 4 (N.of_nat (i + 1)) "") as Hlen.
    change (10 ^ N.of_nat 4)%N with 10000%N in Hlen. simpl in Hlen.
    assert (N.of_nat (i + 1) < 10000)%N as Hlt by lia.
    specialize (Hlen Hlt). lia.
Qed.

Lemma index_label_unique_and_aligned_witness :
  (N.of_nat 41 < 9999)%N ∧ String.length (index_label 41) = 4.
Proof.
  assert (N.of_nat 41 < 9999)%N as Hlt by reflexivity.
  split; [exact Hlt|].
  exact (proj2 (proj2 (index_label_unique_and_aligned 41 41)) Hlt).
Defined.

(** ** Project names *)

Lemma split_on_nonempty (sep : Ascii.ascii) (s : string) : split_on sep s ≠ [].
Proof.
  destruct s as [|c rest]; simpl; [done|].
  destruct (Ascii.eqb c sep); [done|]. by destruct (split_on sep rest).
Qed.

Lemma join_cons (sep part : string) (rest : list string) :
  rest ≠ [] → join sep (part :: rest) = part +:+ sep +:+ join sep rest.
Proof. by destruct rest. Qed.

Lemma app_string_cons (c : Ascii.ascii) (a b : string) :
  String c a +:+ b = String c (a +:+ b).
Proof. reflexivity. Qed.

Lemma app_string_assoc (a b c : string) : (a +:+ b) +:+ c = a +:+ b +:+ c.
Proof.
  induction a as [|x a IH]; [done|]. rewrite !app_string_cons. by f_equal.
Qed.

Lemma join_split_on (sep : Ascii.ascii) (s : string) :
  join (String sep "") (split_on sep s) = s.
Proof.
  induction s as [|c rest IH]; simpl; [done|].
  destruct (Ascii.eqb_spec c sep) as [->|Hne].
  - rewrite join_cons by apply split_on_nonempty. simpl. by rewrite IH.
  - destruct (split_on sep rest) as [|head tail] eqn:Hsplit.
    + by destruct (split_on_nonempty sep rest).
    + destruct tail as [|next tail]; simpl in *; by rewrite <- IH.
Qed.

Lemma split_on_no_sep (sep : Ascii.ascii) (s : string) :
  includes sep s = false → split_on sep s = [s].
Proof.
  induction s as [|c rest IH]; simpl; [done|].
  intros [Hc Hrest]%orb_false_iff. rewrite Hc, (IH Hrest). done.
Qed.

Lemma split_on_parts (sep : Ascii.ascii) (s : string) :
  Forall (λ part, includes sep part = false) (split_on sep s).
Proof.
  induction s as [|c rest IH]; simpl; [by repeat constructor|].
  destruct (Ascii.eqb c sep) eqn:Hc; [by constructor|].
  destruct (split_on sep rest) as [|head tail];
    [constructor; [simpl; by rewrite Hc|constructor]|].
  apply Forall_cons in IH as [Hhead Htail]. constructor; [|done].
  simpl. by rewrite Hc, Hhead.
Qed.

Lemma join_snoc (sep : string) (parts : list string) (x : string) :
  parts ≠ [] → join sep (parts ++ [x]) = join sep parts +:+ sep +:+ x.
Proof.
  induction parts as [|p parts IH]; [done|]. intros _.
  destruct parts as [|q parts]; [done|].
  change ((p :: q :: parts) ++ [x]) with (p :: ((q :: parts) ++ [x])).
  rewrite join_cons by done. rewrite IH by done.
  rewrite (join_cons sep p (q :: parts)) by done.
  by rewrite !app_string_assoc.
Qed.

Lemma appName_last (projectName : string) :
  ∃ parts, split_on slash projectName = parts ++ [appName projectName].
Proof.
  unfold appName. destruct (includes slash projectName) eqn:Hinc.
  - destruct (split_on slash projectName) as [|p l] eqn:Hsplit using rev_ind.
    + by destruct (split_on_nonempty slash projectName).
    + exists l. by rewrite last_snoc.
  - exists []. by apply split_on_no_sep.
Qed.

(** X18. The name a logo is asked for is the last segment of the project
    name: it holds no slash, the project name is that segment after a folder
    part that is empty or ends with a slash, and a project name without a
    slash is its own segment. Splitting a name at its slashes and joining the
    parts with slashes gives the name back. *)
Theorem appName_is_last_segment (projectName : string) :
  includes slash (appName projectName) = false
  ∧ (∃ folder, projectName = folder +:+ appName projectName
               ∧ (folder = "" ∨ ∃ path, folder = path +:+ "/"))
  ∧ (includes slash projectName = false → appName projectName = projectName)
  ∧ appName (appName projectName) = appName projectName
  ∧ join "/" (split_on slash projectName) = projectName.
Proof.
  destruct (appName_last projectName) as [parts Hparts].
  assert (includes slash (appName projectName) = false) as Hclean.
  { pose proof (split_on_parts slash projectName) as Hall.
    rewrite Hparts, Forall_app, Forall_singleton in Hall. by destruct Hall. }
  split_and!.
  - done.
  - pose proof (join_split_on slash projectName) as Hjoin. rewrite Hparts in Hjoin.
    destruct parts as [|p parts].
    + exists "". split; [symmetry; exact Hjoin|by left].
    + rewrite join_snoc in Hjoin by done.
      exists (join (String slash "") (p :: parts) +:+ "/").
      split; [rewrite app_string_assoc; symmetry; exact Hjoin|right; eauto].
  - intros Hno. unfold appName. by rewrite Hno.
  - unfold appName at 1. by rewrite Hclean.
  - apply join_split_on.
Qed.

Lemma replace_first_unfold (pattern replacement s : string) :
  replace_first pattern replacement s
  = if String.prefix pattern s
    then replacement +:+ String.substring (String.length pattern)
                           (String.length s - String.length pattern) s
    else match s with
         | EmptyString => EmptyString
         | String c rest => String c (replace_first pattern replacement rest)
         end.
Proof. by destruct s. Qed.

Lemma replace_first_head (pattern replacement rest : string) :
  replace_first pattern replacement (pattern +:+ rest) = replacement +:+ rest.
Proof.
  rewrite replace_first_unfold.
  assert (String.prefix pattern (pattern +:+ rest) = true) as ->
    by (apply prefix_spec; eauto).
  rewrite length_app_string.
  replace (String.length pattern + String.length rest - String.length pattern)
    with (String.length rest) by lia.
  by rewrite substring_app_r.
Qed.

Lemma replace_first_absent (pattern replacement s : string) :
  (∀ before after, s ≠ before +:+ pattern +:+ after) →
  replace_first pattern replacement s = s.
Proof.
  induction s as [|c rest IH]; intros Habsent; rewrite replace_first_unfold.
  - destruct (String.prefix pattern "") eqn:Hprefix; [|done].
    apply prefix_spec in Hprefix as [r Hr]. by destruct (Habsent "" r).
  - destruct (String.prefix pattern (String c rest)) eqn:Hprefix.
    + apply prefix_spec in Hprefix as [r Hr]. by destruct (Habsent "" r).
    + f_equal. apply IH. intros before after ->.
      by apply (Habsent (String c before) after).
Qed.

(** X19. The project name shown in the status bar is the project without
    its [downloads_2024/] folder: a project in that folder is shown by the
    rest of its name, a project name in which the folder does not occur is
    shown as it is, and no project is shown as the empty string. For a
    project directly in that folder the name shown is the name its logo is
    asked for. *)
Theorem displayProjectName_strips_folder (name : string) :
  displayProjectName (Some ("downloads_2024/" +:+ name)) = name
  ∧ ((∀ before after, name ≠ before +:+ "downloads_2024/" +:+ after) →
     displayProjectName (Some name) = name)
  ∧ displayProjectName None = ""
  ∧ (includes slash name = false →
     appName ("downloads_2024/" +:+ name)
     = displayProjectName (Some ("downloads_2024/" +:+ name))).
Proof.
  split_and!.
  - unfold displayProjectName. by rewrite replace_first_head.
  - intros Habsent. unfold displayProjectName. by apply replace_first_absent.
  - done.
  - intros Hno. unfold displayProjectName. rewrite replace_first_head.
    unfold appName. cbv beta iota fix delta [String.append].
    simpl. by rewrite (split_on_no_sep slash name Hno).
Qed.

(** ** Importing from the pending panel *)

(** X20. An import from the pending panel clears its busy marker in every
    outcome and reloads the collection exactly on success: with a project
    selected, what [handleImport] does starts with marking the file as being
    imported and ends with clearing that mark; [fetchData] is called if and
    only if the backend resolved with success, then for the selected project
    and right after the pending list was reloaded; without a project it shows
    the no-project toast and does nothing else. *)
Theorem panel_import_reloads_on_success
    (selectedProject : option string) (filename : string)
    (reply : ImportOutcome) (pending : PendingReply) :
  let effects := handleImport selectedProject filename reply pending in
  (truthy_opt selectedProject = None → effects = [PanelToastNoProject])
  ∧ (∀ project, truthy_opt selectedProject = Some project →
       (∃ middle, effects = SetImporting (Some filename) :: middle ++ [SetImporting None]
                  ∧ (∀ f, SetImporting f ∉ middle))
       ∧ (∀ p, FetchData p ∈ effects ↔
               p = project ∧ ∃ result, reply = ImportResolved result
                                       ∧ result_success result = true)
       ∧ (∀ p, FetchData p ∈ effects →
               ∃ before, effects = before ++ [SetLoading false; FetchData p;
                                              SetImporting None])).
Proof.
  intros effects. subst effects. unfold handleImport, handleImportSuccess, loadPending.
  split.
  - by intros ->.
  - intros project ->. split_and!.
    + eexists. split; [reflexivity|]. intros f.
      destruct reply as [[[] nf msg]|msg], pending; simpl;
        rewrite ?elem_of_cons, ?elem_of_nil; intros H;
        repeat destruct H as [H|H]; try done.
    + intros p. split.
      * destruct reply as [[[] nf msg]|msg], pending; simpl;
          rewrite ?elem_of_cons, ?elem_of_nil; intros H;
          repeat destruct H as [H|H]; try done;
          injection H as ->; (split; [done|eauto]).
      * intros [-> (result & -> & Hsuccess)]. rewrite Hsuccess.
        rewrite !elem_of_app, !elem_of_cons. intuition.
    + intros p. destruct reply as [[[] nf msg]|msg], pending; simpl;
        rewrite ?elem_of_cons, ?elem_of_nil; intros H;
        repeat destruct H as [H|H]; try done; injection H as ->.
      * by eexists [_; _; _; _; _].
      * by eexists [_; _; _; _; _].
Qed.
